(** * pdoc.docstrings: conversion of docstring flavours to Markdown

    A shallow embedding of [pdoc/docstrings.py].  Python text is modelled as a
    list of code points below 256 ([ascii]); the regular expressions of the
    module are kept as syntax trees and run by a backtracking matcher that
    follows the search order of Python's [re]. *)

From Stdlib Require Import String Ascii List Arith NArith ZArith Lia Bool DecimalString.
Import ListNotations.


(* ================================================================== *)
(** ** Python text *)
(* ================================================================== *)

Definition str := list ascii.

Definition chr (n : nat) : ascii := ascii_of_nat n.
Definition code (c : ascii) : N := N_of_ascii c.

Definition NL : ascii := chr 10.
Definition TAB : ascii := chr 9.
Definition CR : ascii := chr 13.
Definition SP : ascii := chr 32.
Definition DQ : ascii := chr 34.
Definition SQ : ascii := chr 39.
Definition BSL : ascii := chr 92.

Definition hexval (c : ascii) : option nat :=
  let n := nat_of_ascii c in
  if (48 <=? n) && (n <=? 57) then Some (n - 48)
  else if (97 <=? n) && (n <=? 102) then Some (n - 87)
  else if (65 <=? n) && (n <=? 70) then Some (n - 55)
  else None.

(** Source-style literals: [py "a\nb"] reads the escapes [\n], [\t], [\r],
    [\\] and [\xHH] the way a Python string literal does. *)
Fixpoint unescape (l : str) : str :=
  match l with
  | [] => []
  | c :: tl =>
    if Ascii.eqb c BSL then
      match tl with
      | d :: tl' =>
        if Ascii.eqb d "n" then NL :: unescape tl'
        else if Ascii.eqb d "t" then TAB :: unescape tl'
        else if Ascii.eqb d "r" then CR :: unescape tl'
        else if Ascii.eqb d BSL then BSL :: unescape tl'
        else if Ascii.eqb d "x" then
          match tl' with
          | h1 :: h2 :: tl'' =>
            match hexval h1, hexval h2 with
            | Some a, Some b => chr (16 * a + b) :: unescape tl''
            | _, _ => c :: unescape tl
            end
          | _ => c :: unescape tl
          end
        else c :: unescape tl
      | [] => [c]
      end
    else c :: unescape tl
  end.

Definition py (s : string) : str := unescape (list_ascii_of_string s).

Definition str_eqb (a b : str) : bool :=
  if list_eq_dec ascii_dec a b then true else false.

Definition in_range (lo hi : N) (c : ascii) : bool :=
  (N.leb lo (code c) && N.leb (code c) hi)%bool.

(** [str.isspace] on one character, which is also what [\s] matches. *)
Definition isspace (c : ascii) : bool :=
  in_range 9 13 c || in_range 28 32 c || N.eqb (code c) 133 || N.eqb (code c) 160.

Definition isdigit (c : ascii) : bool := in_range 48 57 c.

(** What [\w] matches: alphanumeric characters and the underscore. *)
Definition isword (c : ascii) : bool :=
  in_range 48 57 c || in_range 65 90 c || in_range 97 122 c || N.eqb (code c) 95
  || N.eqb (code c) 170 || in_range 178 179 c || N.eqb (code c) 181
  || in_range 185 186 c || in_range 188 190 c
  || in_range 192 214 c || in_range 216 246 c || in_range 248 255 c.

(** The characters at which [str.splitlines] ends a line. *)
Definition islinebreak (c : ascii) : bool :=
  in_range 10 13 c || in_range 28 30 c || N.eqb (code c) 133.

Definition lower_char (c : ascii) : ascii :=
  if in_range 65 90 c || in_range 192 214 c || in_range 216 222 c
  then ascii_of_N (code c + 32) else c.

Definition lower (s : str) : str := map lower_char s.

Fixpoint startswith (p s : str) : bool :=
  match p, s with
  | [], _ => true
  | a :: p', b :: s' => Ascii.eqb a b && startswith p' s'
  | _ :: _, [] => false
  end.

(** [sub in s] *)
Fixpoint contains (sub s : str) : bool :=
  startswith sub s || match s with [] => false | _ :: tl => contains sub tl end.

Fixpoint lstrip_by (p : ascii -> bool) (s : str) : str :=
  match s with
  | c :: tl => if p c then lstrip_by p tl else s
  | [] => []
  end.

Definition rstrip_by (p : ascii -> bool) (s : str) : str :=
  rev (lstrip_by p (rev s)).

Definition lstrip (s : str) : str := lstrip_by isspace s.
Definition strip (s : str) : str := rstrip_by isspace (lstrip s).

Definition mem_char (cs : str) (c : ascii) : bool := existsb (Ascii.eqb c) cs.

(** [s.lstrip(chars)] and [s.strip(chars)] *)
Definition lstrip_chars (cs s : str) : str := lstrip_by (mem_char cs) s.
Definition strip_chars (cs s : str) : str :=
  rstrip_by (mem_char cs) (lstrip_by (mem_char cs) s).

(** [s.splitlines(keepends=True)].  [cur] is the line being read, reversed. *)
Fixpoint splitlines_go (cur : str) (s : str) : list str :=
  match s with
  | [] => match cur with [] => [] | _ => [rev cur] end
  | c :: tl =>
    if Ascii.eqb c CR then
      match tl with
      | d :: tl' =>
        if Ascii.eqb d NL then rev (d :: c :: cur) :: splitlines_go [] tl'
        else rev (c :: cur) :: splitlines_go [] tl
      | [] => [rev (c :: cur)]
      end
    else if islinebreak c then rev (c :: cur) :: splitlines_go [] tl
    else splitlines_go (c :: cur) tl
  end.

Definition splitlines_keep (s : str) : list str := splitlines_go [] s.

Definition chomp (line : str) : str :=
  match rev line with
  | c :: tl =>
    if Ascii.eqb c NL then
      match tl with
      | d :: tl' => if Ascii.eqb d CR then rev tl' else rev tl
      | [] => []
      end
    else if islinebreak c then rev tl else line
  | [] => []
  end.

(** [s.splitlines()] *)
Definition splitlines (s : str) : list str := map chomp (splitlines_keep s).

(** [s.split(sep)] for a one-character separator: always at least one field. *)
Fixpoint split_char_go (sep : ascii) (cur : str) (s : str) : list str :=
  match s with
  | [] => [rev cur]
  | c :: tl =>
    if Ascii.eqb c sep then rev cur :: split_char_go sep [] tl
    else split_char_go sep (c :: cur) tl
  end.

Definition split_char (sep : ascii) (s : str) : list str := split_char_go sep [] s.

(** [s.split(sep, maxsplit=1)] for a one-character separator. *)
Fixpoint split_once_go (sep : ascii) (cur : str) (s : str) : list str :=
  match s with
  | [] => [rev cur]
  | c :: tl =>
    if Ascii.eqb c sep then [rev cur; tl]
    else split_once_go sep (c :: cur) tl
  end.

Definition split_once (sep : ascii) (s : str) : list str := split_once_go sep [] s.

(** [sep.join(parts)] *)
Fixpoint join (sep : str) (parts : list str) : str :=
  match parts with
  | [] => []
  | [x] => x
  | x :: tl => x ++ sep ++ join sep tl
  end.

(** [s.index(x)]: the offset of the first occurrence, if any. *)
Fixpoint index_of (x s : str) : option nat :=
  if startswith x s then Some 0
  else match s with
       | [] => None
       | _ :: tl => option_map S (index_of x tl)
       end.

(** [s.expandtabs()] with the default tab size of 8. *)
Fixpoint expandtabs_go (col : nat) (s : str) : str :=
  match s with
  | [] => []
  | c :: tl =>
    if Ascii.eqb c TAB then
      repeat SP (8 - col mod 8) ++ expandtabs_go 0 tl
    else if Ascii.eqb c NL || Ascii.eqb c CR then c :: expandtabs_go 0 tl
    else c :: expandtabs_go (S col) tl
  end.

Definition expandtabs (s : str) : str := expandtabs_go 0 s.

(* ================================================================== *)
(** ** Regular expressions, as [re] runs them *)
(* ================================================================== *)

(** One entry of a character set [[...]]. *)
Inductive citem :=
| ILit (c : ascii)
| IRange (lo hi : ascii)
| ISpace                       (* \s *)
| INonSpace                    (* \S *)
| IDigit                       (* \d *)
| IWord.                       (* \w *)

Definition citem_mem (i : citem) (c : ascii) : bool :=
  match i with
  | ILit a => Ascii.eqb a c
  | IRange lo hi => in_range (code lo) (code hi) c
  | ISpace => isspace c
  | INonSpace => negb (isspace c)
  | IDigit => isdigit c
  | IWord => isword c
  end.

(** What one pattern position accepts. *)
Inductive cpred :=
| PLit (c : ascii)             (* a literal character *)
| PDot                         (* .  (no DOTALL flag is ever used) *)
| PSet (items : list citem)    (* [...]  *)
| PNot (items : list citem).   (* [^...] *)

Definition cmatch (p : cpred) (c : ascii) : bool :=
  match p with
  | PLit a => Ascii.eqb a c
  | PDot => negb (Ascii.eqb c NL)
  | PSet items => existsb (fun i => citem_mem i c) items
  | PNot items => negb (existsb (fun i => citem_mem i c) items)
  end.

Inductive regex :=
| Empty
| Chr (p : cpred)
| Seq (r1 r2 : regex)
| Alt (r1 r2 : regex)                (* r1|r2, left first *)
| Star (greedy : bool) (r : regex)   (* r* and r*? *)
| Group (n : nat) (r : regex)        (* capturing group number n *)
| Backref (n : nat)                  (* (?P=name) *)
| Bol                                (* ^ *)
| Eol                                (* $ *)
| NotAhead (r : regex).              (* (?!r) *)

(** [r+], [r+?] and [r?] are the usual abbreviations. *)
Definition Plus (greedy : bool) (r : regex) : regex := Seq r (Star greedy r).
Definition Opt (r : regex) : regex := Alt r Empty.

Fixpoint Lits (s : str) : regex :=
  match s with
  | [] => Empty
  | [c] => Chr (PLit c)
  | c :: tl => Seq (Chr (PLit c)) (Lits tl)
  end.

Fixpoint Alts (rs : list regex) : regex :=
  match rs with
  | [] => Empty
  | [r] => r
  | r :: tl => Alt r (Alts tl)
  end.

Fixpoint Seqs (rs : list regex) : regex :=
  match rs with
  | [] => Empty
  | [r] => r
  | r :: tl => Seq r (Seqs tl)
  end.

Definition Word (s : string) : regex := Lits (py s).
Definition Space : regex := Chr (PSet [ISpace]).       (* \s *)
Definition NonSpace : regex := Chr (PNot [ISpace]).    (* \S *)
Definition Any : regex := Chr PDot.                    (* . *)
Definition Blank : regex := Chr (PLit SP).             (* [ ] *)
Definition Newline : regex := Chr (PLit NL).           (* \n *)

(** The matcher's position: the text already passed (latest character first),
    the text ahead, and the groups captured so far (latest binding first). *)
Record mstate := MState {
  seen : str;
  rest : str;
  caps : list (nat * str)
}.

Fixpoint lookup_cap (n : nat) (cs : list (nat * str)) : option str :=
  match cs with
  | [] => None
  | (k, v) :: tl => if Nat.eqb k n then Some v else lookup_cap n tl
  end.

Definition step (c : ascii) (tl : str) (st : mstate) : mstate :=
  MState (c :: seen st) tl (caps st).

(** The text passed between two positions of one run. *)
Definition consumed (st st' : mstate) : str :=
  firstn (length (rest st) - length (rest st')) (rest st).

Definition set_cap (n : nat) (v : str) (st : mstate) : mstate :=
  MState (seen st) (rest st) ((n, v) :: caps st).

Fixpoint strip_prefix (p s : str) : option str :=
  match p, s with
  | [], _ => Some s
  | a :: p', b :: s' => if Ascii.eqb a b then strip_prefix p' s' else None
  | _ :: _, [] => None
  end.

(** [^]: the start of the text, and with MULTILINE also after each newline. *)
Definition at_bol (multiline : bool) (st : mstate) : bool :=
  match seen st with
  | [] => true
  | c :: _ => multiline && Ascii.eqb c NL
  end.

(** [$]: the end of the text or just before a final newline; with MULTILINE
    before every newline. *)
Definition at_eol (multiline : bool) (st : mstate) : bool :=
  match rest st with
  | [] => true
  | c :: tl => Ascii.eqb c NL && (multiline || match tl with [] => true | _ => false end)
  end.

(** The loop of a starred pattern: [body] runs the pattern once.  An
    iteration has to move forward, so [n] iterations are enough when [n]
    characters are ahead.  A greedy star tries another iteration before it
    lets the rest of the pattern go on, a lazy one after. *)
Fixpoint star_loop (greedy : bool)
    (body : mstate -> (mstate -> option mstate) -> option mstate)
    (k : mstate -> option mstate) (n : nat) (st : mstate) {struct n} : option mstate :=
  match n with
  | 0 => k st
  | S n' =>
    let again (_ : unit) :=
      body st (fun st' =>
        if length (rest st') <? length (rest st)
        then star_loop greedy body k n' st' else None) in
    if greedy
    then match again tt with Some x => Some x | None => k st end
    else match k st with Some x => Some x | None => again tt end
  end.

(** The backtracking matcher, written with a success continuation [k]; the
    first alternative that lets [k] succeed wins, as in [re]. *)
Fixpoint run (ml : bool) (r : regex) (st : mstate)
    (k : mstate -> option mstate) {struct r} : option mstate :=
  match r with
  | Empty => k st
  | Chr p =>
    match rest st with
    | c :: tl => if cmatch p c then k (step c tl st) else None
    | [] => None
    end
  | Seq a b => run ml a st (fun st' => run ml b st' k)
  | Alt a b =>
    match run ml a st k with
    | Some x => Some x
    | None => run ml b st k
    end
  | Star greedy a => star_loop greedy (run ml a) k (length (rest st)) st
  | Group n a => run ml a st (fun st' => k (set_cap n (consumed st st') st'))
  | Backref n =>
    match lookup_cap n (caps st) with
    | Some v =>
      match strip_prefix v (rest st) with
      | Some tl => k (MState (rev v ++ seen st) tl (caps st))
      | None => None
      end
    | None => None
    end
  | Bol => if at_bol ml st then k st else None
  | Eol => if at_eol ml st then k st else None
  | NotAhead a =>
    match run ml a st (fun st' => Some st') with
    | Some _ => None
    | None => k st
    end
  end.

(** A match object: the text before the match, the match ([m[0]]), the text
    after it, and the groups. *)
Record rmatch := RMatch {
  m_before : str;
  m_text : str;
  m_after : str;
  m_caps : list (nat * str)
}.

(** [m.group(n)]; [None] when the group took no part in the match. *)
Definition group (m : rmatch) (n : nat) : option str := lookup_cap n (m_caps m).

(** A group that always takes part in a match of its pattern. *)
Definition group_str (m : rmatch) (n : nat) : str :=
  match group m n with Some v => v | None => [] end.

(** Try the pattern at the position between [before] (reversed) and [after]. *)
Definition match_at (ml : bool) (r : regex) (before after : str) : option rmatch :=
  match run ml r (MState before after []) (fun st' => Some st') with
  | Some st' =>
    Some (RMatch (rev before)
                 (firstn (length after - length (rest st')) after)
                 (rest st') (caps st'))
  | None => None
  end.

(** [re.match(r, s)] *)
Definition re_match (ml : bool) (r : regex) (s : str) : option rmatch :=
  match_at ml r [] s.

(** The pieces a left-to-right scan cuts a text into: characters outside every
    match, and the successive non-overlapping matches.  [skip] counts the
    characters still covered by the last match. *)
Inductive piece :=
| Keep (c : ascii)
| Hit (m : rmatch).

Fixpoint scan (ml : bool) (r : regex) (before after : str) (skip : nat)
    : list piece :=
  match skip with
  | S k =>
    match after with
    | c :: tl => scan ml r (c :: before) tl k
    | [] => []
    end
  | 0 =>
    match match_at ml r before after with
    | Some m =>
      Hit m ::
      match after with
      | c :: tl =>
        match length (m_text m) with
        | 0 => Keep c :: scan ml r (c :: before) tl 0
        | S l => scan ml r (c :: before) tl l
        end
      | [] => []
      end
    | None =>
      match after with
      | c :: tl => Keep c :: scan ml r (c :: before) tl 0
      | [] => []
      end
    end
  end.

(** [re.finditer(r, s)] together with the text between the matches. *)
Definition pieces (ml : bool) (r : regex) (s : str) : list piece :=
  scan ml r [] s 0.

(** With [count]/[maxsplit] set to [n], the matches after the [n]-th stay text. *)
Fixpoint keep_text (s : str) (ps : list piece) : list piece :=
  match s with
  | [] => ps
  | c :: tl => Keep c :: keep_text tl ps
  end.

Fixpoint limit_hits (n : nat) (ps : list piece) : list piece :=
  match ps with
  | [] => []
  | Keep c :: tl => Keep c :: limit_hits n tl
  | Hit m :: tl =>
    match n with
    | 0 => keep_text (m_text m) (limit_hits 0 tl)
    | S n' => Hit m :: limit_hits n' tl
    end
  end.

Fixpoint hits (ps : list piece) : list rmatch :=
  match ps with
  | [] => []
  | Keep _ :: tl => hits tl
  | Hit m :: tl => m :: hits tl
  end.

(** [re.search(r, s)] *)
Definition re_search (ml : bool) (r : regex) (s : str) : option rmatch :=
  hd_error (hits (pieces ml r s)).

(** [re.sub(r, repl, s)] with a function [repl] that cannot fail. *)
Fixpoint sub_pieces (repl : rmatch -> str) (ps : list piece) : str :=
  match ps with
  | [] => []
  | Keep c :: tl => c :: sub_pieces repl tl
  | Hit m :: tl => repl m ++ sub_pieces repl tl
  end.

Definition re_sub (ml : bool) (r : regex) (repl : rmatch -> str) (s : str) : str :=
  sub_pieces repl (pieces ml r s).

(** [re.split(r, s)] for a pattern with the capturing groups [gs]: the text
    between matches, with the groups of each match in between. *)
Fixpoint split_pieces (gs : list nat) (cur : str) (ps : list piece) : list str :=
  match ps with
  | [] => [rev cur]
  | Keep c :: tl => split_pieces gs (c :: cur) tl
  | Hit m :: tl => rev cur :: map (group_str m) gs ++ split_pieces gs [] tl
  end.

Definition re_split (ml : bool) (r : regex) (gs : list nat) (s : str) : list str :=
  split_pieces gs [] (pieces ml r s).

Definition re_split_max (ml : bool) (r : regex) (gs : list nat) (n : nat) (s : str)
    : list str :=
  split_pieces gs [] (limit_hits n (pieces ml r s)).

(** [re.findall(r, s)] for a pattern with the single group [g]. *)
Definition re_findall (ml : bool) (r : regex) (g : nat) (s : str) : list str :=
  map (fun m => group_str m g) (hits (pieces ml r s)).

(** [re.sub] with a replacement function that reads and updates the variables
    of the enclosing function ([nonlocal] variables, a shared dict or set). *)
Fixpoint sub_piecesS {S : Type} (repl : rmatch -> S -> str * S)
    (ps : list piece) (s : S) : str * S :=
  match ps with
  | [] => ([], s)
  | Keep c :: tl => let (out, s') := sub_piecesS repl tl s in (c :: out, s')
  | Hit m :: tl =>
    let (x, s1) := repl m s in
    let (out, s2) := sub_piecesS repl tl s1 in
    (x ++ out, s2)
  end.

Definition re_subS {S : Type} (ml : bool) (r : regex) (repl : rmatch -> S -> str * S)
    (text : str) (s : S) : str * S :=
  sub_piecesS repl (pieces ml r text) s.

(* ================================================================== *)
(** ** [textwrap.dedent], [textwrap.indent], [inspect.cleandoc] *)
(* ================================================================== *)

Definition is_empty (s : str) : bool := match s with [] => true | _ => false end.

Definition blank_tab : cpred := PSet [ILit SP; ILit TAB].

(** [_whitespace_only_re = '^[ \t]+$'], MULTILINE *)
Definition whitespace_only_re : regex :=
  Seqs [Bol; Plus true (Chr blank_tab); Eol].

(** [_leading_whitespace_re]: group 1 is [^] and [[ \t]] starred, then one
    character of [[^ \t\n]]; MULTILINE *)
Definition leading_whitespace_re : regex :=
  Seq (Group 1 (Seq Bol (Star true (Chr blank_tab))))
      (Chr (PNot [ILit SP; ILit TAB; ILit NL])).

(** The branch of [dedent] for two margins neither of which starts the other:
    cut [margin] at the first position where it differs from [indent]. *)
Fixpoint cut_at_difference (margin indent : str) : str :=
  match margin, indent with
  | x :: m', y :: i' => if Ascii.eqb x y then x :: cut_at_difference m' i' else []
  | _, _ => margin
  end.

Definition margin_step (margin : option str) (indent : str) : option str :=
  match margin with
  | None => Some indent
  | Some m =>
    if startswith m indent then Some m
    else if startswith indent m then Some indent
    else Some (cut_at_difference m indent)
  end.

Definition dedent (text : str) : str :=
  let text := re_sub true whitespace_only_re (fun _ => []) text in
  let indents := re_findall true leading_whitespace_re 1 text in
  match fold_left margin_step indents None with
  | Some (c :: m) => re_sub true (Seq Bol (Lits (c :: m))) (fun _ => []) text
  | _ => text
  end.

Definition indent_with (predicate : str -> bool) (text prefix : str) : str :=
  concat (map (fun line => if predicate line then prefix ++ line else line)
              (splitlines_keep text)).

(** [indent(text, prefix)]: lines that are not whitespace only get the prefix. *)
Definition indent (text prefix : str) : str :=
  indent_with (fun line => negb (is_empty (strip line))) text prefix.

(** [indent(text, prefix, lambda line: True)] *)
Definition indent_all (text prefix : str) : str :=
  indent_with (fun _ => true) text prefix.

Definition min_opt (m : option nat) (n : nat) : option nat :=
  match m with None => Some n | Some k => Some (Nat.min k n) end.

(** The margin loop of [cleandoc]; [None] stands for [sys.maxsize]. *)
Definition cleandoc_margin (lines : list str) : option nat :=
  fold_left (fun margin line =>
               let content := length (lstrip line) in
               if Nat.eqb content 0 then margin
               else min_opt margin (length line - content))
            lines None.

Fixpoint drop_leading_empty (lines : list str) : list str :=
  match lines with
  | [] :: tl => drop_leading_empty tl
  | _ => lines
  end.

Definition drop_trailing_empty (lines : list str) : list str :=
  rev (drop_leading_empty (rev lines)).

Definition cleandoc (doc : str) : str :=
  match split_char NL (expandtabs doc) with
  | [] => []
  | first :: others =>
    let margin := cleandoc_margin others in
    let others :=
      match margin with
      | Some k => map (skipn k) others
      | None => others
      end in
    join [NL] (drop_leading_empty (drop_trailing_empty (lstrip first :: others)))
  end.

(* ================================================================== *)
(** ** Failures, warnings and the outside world *)
(* ================================================================== *)

(** The exceptions that can cross the module, by class. *)
Inductive exn :=
| KeyboardInterrupt
| SystemExit
| GeneratorExit
| AssertionError (msg : str)
| IndexError (msg : str)
| ValueError (msg : str)
| OSError (msg : str)
| RecursionError
| OtherException (name msg : str)        (* any further subclass of Exception *)
| OtherBaseException (name msg : str)    (* a BaseException outside the classes above *)
| RuntimeError (msg : str) (cause : exn). (* raise RuntimeError(msg) from cause *)

(** [isinstance(e, Exception)] *)
Definition is_Exception (e : exn) : bool :=
  match e with
  | KeyboardInterrupt | SystemExit | GeneratorExit | OtherBaseException _ _ => false
  | _ => true
  end.

Definition is_SystemExit (e : exn) : bool :=
  match e with SystemExit => true | _ => false end.

Definition is_GeneratorExit (e : exn) : bool :=
  match e with GeneratorExit => true | _ => false end.

Definition is_OSError (e : exn) : bool :=
  match e with OSError _ => true | _ => false end.

Definition is_ValueError (e : exn) : bool :=
  match e with ValueError _ => true | _ => false end.

(** [AnyException = (SystemExit, GeneratorExit, Exception)] *)
Definition AnyException (e : exn) : bool :=
  is_SystemExit e || is_GeneratorExit e || is_Exception e.

Inductive result (A : Type) :=
| Ok (a : A)
| Raise (e : exn).

Arguments Ok {A} a.
Arguments Raise {A} e.

(** A computation that may raise and may call [warnings.warn]: its outcome and
    the warnings it emitted, in order. *)
Definition E (A : Type) : Type := result A * list str.

Definition ret {A} (a : A) : E A := (Ok a, []).
Definition raise {A} (e : exn) : E A := (Raise e, []).
Definition warn (msg : str) : E unit := (Ok tt, [msg]).

Definition bind {A B} (m : E A) (f : A -> E B) : E B :=
  match m with
  | (Ok a, w1) => let (r, w2) := f a in (r, w1 ++ w2)
  | (Raise e, w1) => (Raise e, w1)
  end.

Declare Scope py_scope.
Delimit Scope py_scope with py_scope.
Notation "x <- m ;; k" := (bind m (fun x => k))
  (at level 61, m at next level, right associativity) : py_scope.
Notation "m ;;; k" := (bind m (fun _ => k))
  (at level 61, right associativity) : py_scope.
Local Open Scope py_scope.

(** [re.sub] with a replacement function that may raise or warn. *)
Fixpoint sub_piecesE (repl : rmatch -> E str) (ps : list piece) : E str :=
  match ps with
  | [] => ret []
  | Keep c :: tl => out <- sub_piecesE repl tl ;; ret (c :: out)
  | Hit m :: tl =>
    x <- repl m ;;
    out <- sub_piecesE repl tl ;;
    ret (x ++ out)
  end.

Definition re_subE (ml : bool) (r : regex) (repl : rmatch -> E str) (s : str) : E str :=
  sub_piecesE repl (pieces ml r s).

(** The same with variables of the enclosing function threaded through. *)
Fixpoint sub_piecesSE {S : Type} (repl : rmatch -> S -> E (str * S))
    (ps : list piece) (s : S) : E (str * S) :=
  match ps with
  | [] => ret ([], s)
  | Keep c :: tl =>
    r <- sub_piecesSE repl tl s ;; ret (c :: fst r, snd r)
  | Hit m :: tl =>
    x <- repl m s ;;
    r <- sub_piecesSE repl tl (snd x) ;;
    ret (fst x ++ fst r, snd r)
  end.

Definition re_subSE {S : Type} (ml : bool) (r : regex)
    (repl : rmatch -> S -> E (str * S)) (text : str) (s : S) : E (str * S) :=
  sub_piecesSE repl (pieces ml r text) s.

(** What the module asks of its surroundings: paths and files, the process
    environment, and the library functions it calls that are not text
    processing.  A read may end in any exception; in particular the user may
    interrupt it. *)
Record world := World {
  Path : Type;
  here : Path;                          (* Path(".") *)
  parent : Path -> Path;                (* p.parent *)
  joinpath : Path -> str -> Path;       (* p / name *)
  path_eqb : Path -> Path -> bool;
  path_eqb_refl : forall p, path_eqb p p = true;
  read_text : Path -> result str;       (* p.read_text("utf8", "replace") *)
  read_bytes : Path -> result str;      (* p.read_bytes() *)
  guess_type : Path -> option str;      (* mimetypes.guess_type(p)[0] *)
  b64encode : str -> str;               (* base64.b64encode(data).decode() *)
  environ : str -> option str;          (* os.environ.get(name) *)
  parse_int : str -> option Z;          (* int(s), None for ValueError *)
  repr_str : str -> str;                (* repr(s) *)
  repr_path : option Path -> str;       (* repr(p) *)
  exn_str : exn -> str;                 (* str(e) *)
  recursion_limit : nat                 (* nested includes the stack allows *)
}.

(** How a value of type [str | None] is formatted. *)
Definition fmt_opt (o : option str) : str :=
  match o with Some s => s | None => py "None" end.

(* ================================================================== *)
(** ** [embed_images] *)
(* ================================================================== *)

Section WithWorld.

Variable w : world.

(** [!\[\s*.*?\s*]\(\s*] as group [before], [.+?] as [href],
    [\s*\)] as [after] *)
Definition markdown_image_re : regex :=
  Seqs [ Group 1 (Seqs [Word "!["; Star true Space; Star false Any;
                        Star true Space; Word "]("; Star true Space]);
         Group 2 (Plus false Any);
         Group 3 (Seq (Star true Space) (Word ")")) ].

(** [src=] and a quote as group [before], [.+?] as [href], a quote as
    [after] *)
Definition html_src_re : regex :=
  Seqs [ Group 1 (Seq (Word "src=") (Chr (PSet [ILit SQ; ILit DQ])));
         Group 2 (Plus false Any);
         Group 3 (Chr (PSet [ILit SQ; ILit DQ])) ].

Definition local_image_to_data_uri (source_file : Path w) (href : str) : result str :=
  let image_path := joinpath w (parent w source_file) href in
  match read_bytes w image_path with
  | Ok image_data =>
    let image_mime := guess_type w image_path in
    let image_data_b64 := b64encode w image_data in
    Ok (py "data:" ++ fmt_opt image_mime ++ py ";base64," ++ image_data_b64)
  | Raise e => Raise e
  end.

Definition embed_local_image (source_file : Path w) (m : rmatch) : E str :=
  match local_image_to_data_uri source_file (group_str m 2) with
  | Raise e => if is_Exception e then ret (m_text m) else raise e
  | Ok href => ret (group_str m 1 ++ href ++ group_str m 3)
  end.

Definition embed_images (docstring : str) (source_file : Path w) : E str :=
  docstring <- re_subE false markdown_image_re (embed_local_image source_file) docstring ;;
  docstring <- re_subE false html_src_re (embed_local_image source_file) docstring ;;
  ret docstring.

End WithWorld.

(* ================================================================== *)
(** ** [_indented_list] *)
(* ================================================================== *)

(** The loop of [_indented_list]; [ret] holds the items read so far, the
    current one first. *)
Fixpoint indented_list_loop (lines : list str) (ret : list str) : result (list str) :=
  match lines with
  | [] => Ok (rev ret)
  | line :: more =>
    let empty := is_empty (strip line) in
    let indented := startswith [SP] line in
    if negb (empty || indented) then indented_list_loop more (line :: ret)
    else match ret with
         | cur :: older => indented_list_loop more ((cur ++ line) :: older)
         | [] => Raise (IndexError (py "list index out of range"))
         end
  end.

Definition _indented_list (contents : str) : result (list str) :=
  if startswith [SP] contents then Raise (AssertionError contents)
  else if startswith [NL] contents then Raise (AssertionError contents)
  else match indented_list_loop (splitlines_keep contents) [] with
       | Ok ret => Ok (map cleandoc ret)
       | Raise e => Raise e
       end.

(* ================================================================== *)
(** ** [google] *)
(* ================================================================== *)

Definition upper_letter : citem := IRange "A" "Z".
Definition lower_letter : citem := IRange "a" "z".

(** [^(?P<name>[A-Z][A-Z a-z]+):\n] then group [contents]: one or more of
    [\n] or [[ \t]+.+], then [$]; VERBOSE, MULTILINE *)
Definition google_re : regex :=
  Seqs [ Bol;
         Group 1 (Seq (Chr (PSet [upper_letter]))
                      (Plus true (Chr (PSet [upper_letter; ILit SP; lower_letter]))));
         Word ":\n";
         Group 2 (Plus true (Group 3 (Alt Newline
                                          (Seq (Plus true (Chr blank_tab)) (Plus true Any)))));
         Eol ].

Definition GOOGLE_LIST_SECTIONS : list str := [py "Args"; py "Raises"; py "Attributes"].

Definition GOOGLE_LIST_SECTION_ALIASES : list (str * str) :=
  [ (py "Parameters", py "Args"); (py "Params", py "Args"); (py "Arguments", py "Args") ].

Fixpoint dict_get {V : Type} (k : str) (d : list (str * V)) : option V :=
  match d with
  | [] => None
  | (k', v) :: tl => if str_eqb k' k then Some v else dict_get k tl
  end.

(** [d[k] = v] *)
Definition dict_set {V : Type} (k : str) (v : V) (d : list (str * V)) : list (str * V) :=
  (k, v) :: d.

Definition in_list (x : str) (l : list str) : bool := existsb (str_eqb x) l.

(** [^(.+?:)] *)
Definition first_colon_re : regex :=
  Seq Bol (Group 1 (Seq (Plus false Any) (Word ":"))).

Definition google_item (item : str) : str :=
  match re_split_max false first_colon_re [1] 1 item with
  | [_; attr; desc] =>
    py " - **" ++ attr ++ py "** " ++ skipn 3 (indent desc (py "   ")) ++ [NL]
  | _ => py " - " ++ skipn 3 (indent item (py "   ")) ++ [NL]
  end.

Definition _google_section (m : rmatch) : E str :=
  let name := group_str m 1 in
  let contents := lstrip (dedent (group_str m 2)) in
  let name :=
    match dict_get name GOOGLE_LIST_SECTION_ALIASES with
    | Some alias => alias
    | None => name
    end in
  contents <-
    (if in_list name GOOGLE_LIST_SECTIONS then
       match _indented_list contents with
       | Ok items => ret (concat (map google_item items))
       | Raise e => raise e
       end
     else ret (indent_all contents (py "> "))) ;;
  let name := if str_eqb name (py "Args") then py "Arguments" else name in
  ret (py "\n###### " ++ name ++ py ":\n" ++ contents ++ py "\n").

Definition google (docstring : str) : E str :=
  re_subE true google_re _google_section docstring.

(* ================================================================== *)
(** ** [numpy] *)
(* ================================================================== *)

(** [^([A-Z][A-Za-z ]+)\n---+\n+]; VERBOSE, MULTILINE *)
Definition numpy_heading_re : regex :=
  Seqs [ Bol;
         Group 1 (Seq (Chr (PSet [upper_letter]))
                      (Plus true (Chr (PSet [upper_letter; lower_letter; ILit SP]))));
         Newline;
         Word "--"; Plus true (Chr (PLit "-"));
         Plus true Newline ].

(** [\n(?![ \n])] *)
Definition section_end_re : regex :=
  Seq Newline (NotAhead (Chr (PSet [ILit SP; ILit NL]))).

Definition backticked (f : str) : str := py "`" ++ f ++ py "`".

Definition seealso_item (item : str) : str :=
  let '(funcstr, desc) :=
    if contains (py ":") item then
      match split_once ":" item with
      | [funcstr; desc] => (funcstr, py ": " ++ desc)
      | _ => (item, [])
      end
    else (item, []) in
  let funclist := map strip (split_char SP funcstr) in
  let funcs := join (py ", ")
                    (map backticked (filter (fun f => negb (is_empty f)) funclist)) in
  funcs ++ desc ++ py "  \n".

Definition _numpy_seealso (content : str) : result str :=
  match _indented_list content with
  | Ok items => Ok (concat (map seealso_item items))
  | Raise e => Raise e
  end.

(** [^(.+):(.+)] and, as group 3, [[\s\S]*] *)
Definition name_type_re : regex :=
  Seqs [ Bol; Group 1 (Plus true Any); Word ":"; Group 2 (Plus true Any);
         Group 3 (Star true (Chr (PSet [ISpace; INonSpace]))) ].

Definition parameter_item (item : str) : str :=
  match re_match false name_type_re item with
  | Some m =>
    py " - **" ++ strip (group_str m 1) ++ py "** (" ++ strip (group_str m 2) ++ py "):\n"
    ++ indent (strip (group_str m 3)) (py "   ") ++ py "\n"
  | None =>
    let '(name, desc) :=
      if contains [NL] item then
        match split_once NL item with
        | [name; desc] => (strip name, strip desc)
        | _ => (strip item, [])
        end
      else (strip item, []) in
    if negb (is_empty desc)
    then py " - **" ++ name ++ py "**: " ++ desc ++ py "\n"
    else py " - **" ++ name ++ py "**\n"
  end.

Definition _numpy_parameters (content : str) : result str :=
  match _indented_list content with
  | Ok items => Ok (concat (map parameter_item items) ++ py "\n")
  | Raise e => Raise e
  end.

Definition NUMPY_PARAMETER_HEADINGS : list str :=
  [ py "Parameters"; py "Returns"; py "Yields"; py "Receives";
    py "Other Parameters"; py "Raises"; py "Warns"; py "Attributes" ].

(** [zip(sections[1::2], sections[2::2])] applied to [sections[1:]] *)
Fixpoint section_pairs (l : list str) : list (str * str) :=
  match l with
  | heading :: content :: tl => (heading, content) :: section_pairs tl
  | _ => []
  end.

(** The first statement of the loop of [numpy]: the content that is rendered
    and the tail that is put back behind it. *)
Definition split_tail (content : str) : result (str * str) :=
  if startswith [SP] content
     && match re_search false section_end_re content with Some _ => true | None => false end
  then
    match re_split_max false section_end_re [] 1 content with
    | [content'; tail] => Ok (content', tail)
    | _ => Raise (ValueError (py "not enough values to unpack (expected 2, got 1)"))
    end
  else Ok (content, []).

Definition render_section (heading content : str) : result str :=
  if in_list heading NUMPY_PARAMETER_HEADINGS then
    match _numpy_parameters content with
    | Ok body => Ok (py "###### " ++ heading ++ py "\n" ++ body)
    | Raise e => Raise e
    end
  else if str_eqb heading (py "See Also") then
    match _numpy_seealso content with
    | Ok body => Ok (py "###### " ++ heading ++ py "\n" ++ body)
    | Raise e => Raise e
    end
  else Ok (py "###### " ++ heading ++ py "\n" ++ content).

(** One turn of the loop of [numpy]: what is appended to [contents]. *)
Definition numpy_section (heading content : str) : result str :=
  match split_tail content with
  | Ok (content, tail) =>
    match render_section heading (dedent content) with
    | Ok rendered => Ok (rendered ++ tail)
    | Raise e => Raise e
    end
  | Raise e => Raise e
  end.

Fixpoint numpy_loop (pairs : list (str * str)) (contents : str) : result str :=
  match pairs with
  | [] => Ok contents
  | (heading, content) :: tl =>
    match numpy_section heading content with
    | Ok piece => numpy_loop tl (contents ++ piece)
    | Raise e => Raise e
    end
  end.

Definition numpy (docstring : str) : E str :=
  match re_split true numpy_heading_re [1] docstring with
  | [] => raise (IndexError (py "list index out of range"))
  | first :: sections =>
    match numpy_loop (section_pairs sections) first with
    | Ok contents => ret contents
    | Raise e => raise e
    end
  end.

(* ================================================================== *)
(** ** [rst]: links, roles, footnotes, fields *)
(* ================================================================== *)

Definition not_backtick : regex := Chr (PNot [ILit "`"]).

(** [`(?P<text>[^`]+)<(?P<url>.+?)>`_] *)
Definition embedded_uri_re : regex :=
  Seqs [ Word "`"; Group 1 (Plus true not_backtick); Word "<";
         Group 2 (Plus false Any); Word ">`_" ].

(** [^\s*..\s+_(?P<id>[^\n:]+):\s*(?P<url>http\S+)]; MULTILINE *)
Definition link_target_re : regex :=
  Seqs [ Bol; Star true Space; Any; Any; Plus true Space; Word "_";
         Group 1 (Plus true (Chr (PNot [ILit NL; ILit ":"])));
         Word ":"; Star true Space;
         Group 2 (Seq (Word "http") (Plus true NonSpace)) ].

(** [(?P<id>[A-Za-z0-9_\-.:+]|`[^`]+`)_] *)
Definition link_ref_re : regex :=
  Seq (Group 1 (Alt (Chr (PSet [upper_letter; lower_letter; IRange "0" "9"; ILit "_";
                                ILit "-"; ILit "."; ILit ":"; ILit "+"]))
                    (Seqs [Word "`"; Plus true not_backtick; Word "`"])))
      (Word "_").

(** [re.sub(r"\s", "", s)] and [re.sub(r"[\s`]", "", s)] *)
Definition drop_spaces (s : str) : str := re_sub false Space (fun _ => []) s.
Definition drop_spaces_backticks (s : str) : str :=
  re_sub false (Chr (PSet [ISpace; ILit "`"])) (fun _ => []) s.

Definition register_link (m : rmatch) (links : list (str * str)) : str * list (str * str) :=
  let refid := drop_spaces (lower (group_str m 1)) in
  ([], dict_set refid (group_str m 2) links).

Definition replace_link (links : list (str * str)) (m : rmatch) : str :=
  let text := group_str m 1 in
  let refid := drop_spaces_backticks (lower text) in
  match dict_get refid links with
  | Some url => py "[" ++ strip_chars (py "`") text ++ py "](" ++ url ++ py ")"
  | None => m_text m
  end.

Definition _rst_links (contents : str) : str :=
  let contents :=
    re_sub false embedded_uri_re
           (fun m => py "[" ++ group_str m 1 ++ py "](" ++ group_str m 2 ++ py ")")
           contents in
  let (contents, links) := re_subS true link_target_re register_link contents [] in
  re_sub false link_ref_re (replace_link links) contents.

(** [(:py)?:(mod|func|data|const|class|meth|attr|exc|obj):`([^`]+)`] *)
Definition code_reference_re : regex :=
  Seqs [ Opt (Group 1 (Word ":py")); Word ":";
         Group 2 (Alts [Word "mod"; Word "func"; Word "data"; Word "const"; Word "class";
                        Word "meth"; Word "attr"; Word "exc"; Word "obj"]);
         Word ":`"; Group 3 (Plus true not_backtick); Word "`" ].

Definition replace_reference (m : rmatch) : str :=
  let kind := group_str m 2 in
  let name := group_str m 3 in
  if in_list kind [py "meth"; py "func"]
  then py "`" ++ name ++ py "()`"
  else py "`" ++ name ++ py "`".

(** [:math:`(.+?)`] *)
Definition math_re : regex :=
  Seqs [ Word ":math:`"; Group 1 (Plus false Any); Word "`" ].

Definition str_of_nat (n : nat) : str :=
  list_ascii_of_string (DecimalString.NilZero.string_of_uint (Nat.to_uint n)).

(** The variables shared by the two replacement functions of
    [_rst_footnotes]. *)
Record fn_vars := FnVars {
  footnotes : list str;
  autonum : nat
}.

Definition footnote_id_re : regex :=
  Alt (Plus true (Chr (PSet [IDigit])))
      (Seq (Chr (PSet [ILit "#"; ILit "*"])) (Star true (Chr (PSet [IWord])))).

(** [^], group [indent]: [[ ]*], then [\.\.[ ]+\[], group [id], [\]], then
    group [content]: [.*] and any number of [\n] or [(?P=indent)[ ]+.+],
    then [$]; MULTILINE, VERBOSE.  The [id] is [\d+] or [[#*]\w*]. *)
Definition footnote_def_re : regex :=
  Seqs [ Bol; Group 1 (Star true Blank); Word ".."; Plus true Blank; Word "[";
         Group 2 footnote_id_re; Word "]";
         Group 3 (Seq (Star true Any)
                      (Star true (Group 4 (Alt Newline
                                               (Seqs [Backref 1; Plus true Blank;
                                                      Plus true Any])))));
         Eol ].

(** [\[], group [id], [\]_] *)
Definition footnote_ref_re : regex :=
  Seqs [ Word "["; Group 1 footnote_id_re; Word "]_" ].

(** The lines shared by both functions: an anonymous marker takes the next
    number, and leading [#] and [*] are dropped. *)
Definition resolve_fn_id (fn_id : str) (v : fn_vars) : str * fn_vars :=
  let (fn_id, v) :=
    if contains fn_id (py "*#")
    then (py "fn-" ++ str_of_nat (autonum v), FnVars (footnotes v) (autonum v + 1))
    else (fn_id, v) in
  (lstrip_chars (py "#*") fn_id, v).

Definition register_footnote (m : rmatch) (v : fn_vars) : str * fn_vars :=
  let (fn_id, v) := resolve_fn_id (group_str m 2) v in
  let v := FnVars (fn_id :: footnotes v) (autonum v) in
  let content := lstrip (indent (group_str m 3) (py "   ")) in
  (group_str m 1 ++ py "[^" ++ fn_id ++ py "]: " ++ content, v).

Definition replace_references (m : rmatch) (v : fn_vars) : str * fn_vars :=
  let (fn_id, v) := resolve_fn_id (group_str m 1) v in
  if in_list fn_id (footnotes v)
  then (py "[^" ++ fn_id ++ py "]", v)
  else (m_text m, v).

Definition _rst_footnotes (contents : str) : str :=
  let v := FnVars [] 1 in
  let (contents, v) := re_subS true footnote_def_re register_footnote contents v in
  let v := FnVars (footnotes v) 1 in
  fst (re_subS false footnote_ref_re replace_references contents v).

(** The two flags of [_rst_fields]. *)
Record field_vars := FieldVars {
  _has_parameter_section : bool;
  _has_raises_section : bool
}.

(** [^:(?P<type>param|type|return|rtype|raises)(?:[ ]+(?P<name>.+))?:] then
    group [body]: [.*], any number of ([\n[ ]*] repeated, [[ ]+.+]), and
    [\n] or [$]; MULTILINE, VERBOSE *)
Definition field_re : regex :=
  Seqs [ Bol; Word ":";
         Group 1 (Alts [Word "param"; Word "type"; Word "return"; Word "rtype";
                        Word "raises"]);
         Opt (Seq (Plus true Blank) (Group 2 (Plus true Any)));
         Word ":";
         Group 3 (Seqs [ Star true Any;
                         Star true (Group 4 (Seqs [Star true (Seq Newline (Star true Blank));
                                                   Plus true Blank; Plus true Any]));
                         Alt Newline Eol ]) ].

Definition _rst_field (m : rmatch) (v : field_vars) : E (str * field_vars) :=
  let type := group_str m 1 in
  let body := group_str m 3 in
  let name :=
    match group m 2 with
    | Some (c :: n) => py "**" ++ strip (c :: n) ++ py "**: "
    | _ => []
    end in
  if str_eqb type (py "param") then
    let text := py " - " ++ name ++ body in
    if negb (_has_parameter_section v)
    then ret (py "\n###### Parameters\n" ++ text, FieldVars true (_has_raises_section v))
    else ret (text, v)
  else if str_eqb type (py "type") then ret ([], v)
  else if str_eqb type (py "return") then
    ret (py "\n###### Returns\n" ++ indent_all body (py "> "), v)
  else if str_eqb type (py "rtype") then ret ([], v)
  else if str_eqb type (py "raises") then
    let text := py " - " ++ name ++ body in
    if negb (_has_raises_section v)
    then ret (py "\n###### Raises\n" ++ text, FieldVars (_has_parameter_section v) true)
    else ret (text, v)
  else raise (AssertionError (py "unreachable")).

Definition _rst_fields (contents : str) : E str :=
  r <- re_subSE true field_re _rst_field contents (FieldVars false false) ;;
  ret (fst r).

(* ================================================================== *)
(** ** [rst]: admonitions and includes *)
(* ================================================================== *)

(** [^\s*:(.+?):], group 2: [.*], group 3: [[\s\S]*] *)
Definition option_re : regex :=
  Seqs [ Bol; Star true Space; Word ":"; Group 1 (Plus false Any); Word ":";
         Group 2 (Star true Any);
         Group 3 (Star true (Chr (PSet [ISpace; INonSpace]))) ].

(** The [while] loop of [_rst_extract_options].  Every turn shortens
    [contents], so its length bounds the number of turns. *)
Fixpoint extract_options_loop (turns : nat) (contents : str) (options : list (str * str))
    : str * list (str * str) :=
  match turns with
  | 0 => (contents, options)
  | S turns' =>
    match re_match false option_re contents with
    | Some m =>
      extract_options_loop turns' (group_str m 3)
                           (dict_set (group_str m 1) (strip (group_str m 2)) options)
    | None => (contents, options)
    end
  end.

Definition _rst_extract_options (contents : str) : str * list (str * str) :=
  extract_options_loop (length contents) contents [].

(** [l[:k]] and [l[k:]] for a Python integer [k] *)
Definition slice_to {A} (k : Z) (l : list A) : list A :=
  if (0 <=? k)%Z then firstn (Z.to_nat k) l
  else firstn (Z.to_nat (Z.of_nat (length l) + k)) l.

Definition slice_from {A} (k : Z) (l : list A) : list A :=
  if (0 <=? k)%Z then skipn (Z.to_nat k) l
  else skipn (Z.to_nat (Z.of_nat (length l) + k)) l.

(** [options.get(k)] when the value is used as a condition: an empty value
    counts as absent. *)
Definition get_truthy (k : str) (options : list (str * str)) : option str :=
  match dict_get k options with
  | Some (c :: v) => Some (c :: v)
  | _ => None
  end.

Definition has_key (k : str) (options : list (str * str)) : bool :=
  match dict_get k options with Some _ => true | None => false end.

Section Includes.

Variable w : world.

Definition int_of (i : str) : result Z :=
  match parse_int w i with
  | Some k => Ok k
  | None => Raise (ValueError (py "invalid literal for int() with base 10: " ++ repr_str w i))
  end.

Definition index_or_raise (x contents : str) : result nat :=
  match index_of x contents with
  | Some k => Ok k
  | None => Raise (ValueError (py "substring not found"))
  end.

Definition trim_end_line (options : list (str * str)) (lines : list str) : result (list str) :=
  match get_truthy (py "end-line") options with
  | Some i => match int_of i with Ok k => Ok (slice_to k lines) | Raise e => Raise e end
  | None => Ok lines
  end.

Definition trim_start_line (options : list (str * str)) (lines : list str) : result (list str) :=
  match get_truthy (py "start-line") options with
  | Some i => match int_of i with Ok k => Ok (slice_from k lines) | Raise e => Raise e end
  | None => Ok lines
  end.

Definition trim_lines (options : list (str * str)) (contents : str) : result str :=
  if has_key (py "end-line") options || has_key (py "start-line") options then
    match trim_end_line options (splitlines contents) with
    | Ok lines =>
      match trim_start_line options lines with
      | Ok lines => Ok (join [NL] lines)
      | Raise e => Raise e
      end
    | Raise e => Raise e
    end
  else Ok contents.

Definition trim_end_before (options : list (str * str)) (contents : str) : result str :=
  match get_truthy (py "end-before") options with
  | Some x =>
    match index_or_raise x contents with
    | Ok k => Ok (firstn k contents)
    | Raise e => Raise e
    end
  | None => Ok contents
  end.

Definition trim_start_after (options : list (str * str)) (contents : str) : result str :=
  match get_truthy (py "start-after") options with
  | Some x =>
    match index_or_raise x contents with
    | Ok k => Ok (skipn (k + length x) contents)
    | Raise e => Raise e
    end
  | None => Ok contents
  end.

Definition _rst_include_trim (contents : str) (options : list (str * str)) : result str :=
  match trim_lines options contents with
  | Ok contents =>
    match trim_end_before options contents with
    | Ok contents => trim_start_after options contents
    | Raise e => Raise e
    end
  | Raise e => Raise e
  end.

Definition admonition_types : list regex :=
  [ Word "note"; Word "warning"; Word "danger"; Word "versionadded";
    Word "versionchanged"; Word "deprecated"; Word "seealso"; Word "math";
    Word "include"; Word "code-block" ].

(** [^], group [indent]: [[ ]*], then [\.\.[ ]+], group [type], [::],
    group [val]: [.*], then group [contents]: any number of [\n] or
    [(?P=indent)[ ]+.+], then [$]; MULTILINE, VERBOSE *)
Definition admonition_re : regex :=
  Seqs [ Bol; Group 1 (Star true Blank); Word ".."; Plus true Blank;
         Group 2 (Alts admonition_types); Word "::";
         Group 3 (Star true Any);
         Group 4 (Star true (Group 5 (Alt Newline
                                          (Seqs [Backref 1; Plus true Blank;
                                                 Plus true Any]))));
         Eol ].

(** The first [try] of the include branch. *)
Definition read_included (target : Path w) (val : str) : E str :=
  match read_text w target with
  | Ok included => ret included
  | Raise e =>
    if is_OSError e then
      warn (py "Cannot include " ++ repr_str w val ++ py ": " ++ exn_str w e) ;;;
      ret [NL]
    else raise e
  end.

(** The second [try] of the include branch. *)
Definition trim_included (included : str) (options : list (str * str)) (val : str) : E str :=
  match _rst_include_trim included options with
  | Ok trimmed => ret (trimmed ++ [NL])
  | Raise e =>
    if is_ValueError e then
      warn (py "Failed to process include options for " ++ repr_str w val ++ py ": "
            ++ exn_str w e) ;;;
      ret included
    else raise e
  end.

(** The branches of [_rst_admonition] other than [include]. *)
Definition render_admonition (ind type val contents : str) : str :=
  if str_eqb type (py "math") then
    ind ++ py "$$" ++ val ++ contents ++ py "$$\n"
  else if in_list type [py "note"; py "warning"; py "danger"] then
    let heading := if negb (is_empty val) then ind ++ py "###### " ++ val ++ py "\n" else [] in
    ind ++ py "<div class=\x22alert " ++ type ++ py "\x22 markdown=\x221\x22>\n"
    ++ heading ++ indent contents ind ++ py "\n" ++ ind ++ py "</div>\n"
  else if str_eqb type (py "code-block") then
    ind ++ py "```" ++ val ++ py "\n" ++ contents ++ py "\n```\n"
  else
    let text :=
      if str_eqb type (py "versionadded") then py "New in version " ++ val
      else if str_eqb type (py "versionchanged") then py "Changed in version " ++ val
      else if str_eqb type (py "deprecated") then py "Deprecated since version " ++ val
      else strip (type ++ py " " ++ val) in
    if negb (is_empty contents)
    then ind ++ py "*" ++ text ++ py ":*\n" ++ indent contents ind ++ py "\n\n"
    else ind ++ py "*" ++ text ++ py ".*\n".

(** The replacement function [_rst_admonition].  [nested] is the enclosing
    [_rst_admonitions], which the include branch calls on the included text. *)
Definition _rst_admonition (nested : str -> option (Path w) -> E str)
    (source_file : option (Path w)) (m : rmatch) : E str :=
  let ind := group_str m 1 in
  let type := group_str m 2 in
  let val := strip (group_str m 3) in
  let contents := strip (dedent (group_str m 4)) in
  let (contents, options) := _rst_extract_options contents in
  if str_eqb type (py "include") then
    let loc := match source_file with Some p => p | None => here w end in
    let target := joinpath w (parent w loc) val in
    included <- read_included target val ;;
    included <- trim_included included options val ;;
    included <- nested included (Some target) ;;
    included <- embed_images w included target ;;
    ret (indent included ind)
  else ret (render_admonition ind type val contents).

(** [_rst_admonitions].  Nothing in the source bounds the nesting of
    includes; the interpreter does: [depth] is the number of nested calls its
    stack still allows, and the call after that raises [RecursionError]. *)
Fixpoint _rst_admonitions (depth : nat) (contents : str) (source_file : option (Path w))
    {struct depth} : E str :=
  re_subE true admonition_re
          (_rst_admonition
             (match depth with
              | 0 => fun _ _ => raise RecursionError
              | S depth' => _rst_admonitions depth'
              end)
             source_file)
          contents.

Definition rst (contents : str) (source_file : option (Path w)) : E str :=
  contents <- _rst_admonitions (recursion_limit w) contents source_file ;;
  let contents := _rst_links contents in
  let contents := re_sub false code_reference_re replace_reference contents in
  let contents :=
    re_sub false math_re (fun m => py "\\\\( " ++ group_str m 1 ++ py " \\\\)") contents in
  let contents := _rst_footnotes contents in
  _rst_fields contents.

End Includes.

(* ================================================================== *)
(** ** [convert] *)
(* ================================================================== *)

(** The local variable [docstring] inside the [try] block, the exception that
    left the block (if any), and the warnings emitted so far. *)
Record frame := Frame {
  docstring_var : str;
  escaped : option exn;
  emitted : list str
}.

(** [if enabled: docstring = stage(docstring)].  When the call raises, the
    assignment does not happen and the rest of the block is skipped. *)
Definition assign (enabled : bool) (stage : str -> E str) (f : frame) : frame :=
  match escaped f with
  | Some _ => f
  | None =>
    if enabled then
      match stage (docstring_var f) with
      | (Ok v, ws) => Frame v None (emitted f ++ ws)
      | (Raise e, ws) => Frame (docstring_var f) (Some e) (emitted f ++ ws)
      end
    else f
  end.

Definition opt_str_eqb (a b : option str) : bool :=
  match a, b with
  | Some x, Some y => str_eqb x y
  | None, None => true
  | _, _ => false
  end.

Definition rst_flavors : list str := [py "google"; py "numpy"; py "restructuredtext"].

Section Dispatcher.

Variable w : world.

(** The four converters that [convert] calls. *)
Variable rst_stage : str -> option (Path w) -> E str.
Variable google_stage : str -> E str.
Variable numpy_stage : str -> E str.
Variable embed_stage : str -> Path w -> E str.

(** The argument of [RuntimeError] in the handler. *)
Definition failure_message (docstring : str) (source_file : option (Path w))
    (docformat : str) : str :=
  py "Docstring processing failed for docstring=\n\x22\x22\x22\n" ++ docstring
  ++ py "\n\x22\x22\x22\nsource_file=" ++ repr_path w source_file
  ++ py "\ndocformat=" ++ repr_str w docformat.

(** The body of the [try] block. *)
Definition try_block (docstring docformat : str) (source_file : option (Path w)) : frame :=
  let f := Frame docstring None [] in
  let f := assign (existsb (fun x => contains x docformat) rst_flavors)
                  (fun d => rst_stage d source_file) f in
  let f := assign (contains (py "google") docformat) google_stage f in
  let f := assign (contains (py "numpy") docformat) numpy_stage f in
  match source_file with
  | Some p =>
    assign (negb (opt_str_eqb (environ w (py "PDOC_EMBED_IMAGES")) (Some (py "0"))))
           (fun d => embed_stage d p) f
  | None => f
  end.

Definition convert_with (docstring docformat : str) (source_file : option (Path w)) : E str :=
  let docformat := lower docformat in
  let f := try_block docstring docformat source_file in
  match escaped f with
  | None => (Ok (docstring_var f), emitted f)
  | Some e =>
    if AnyException e
    then (Raise (RuntimeError (failure_message (docstring_var f) source_file docformat) e),
          emitted f)
    else (Raise e, emitted f)
  end.

End Dispatcher.

(** The function [convert] as written, before [@cache] is applied. *)
Definition convert (w : world) (docstring docformat : str) (source_file : option (Path w))
    : E str :=
  convert_with w (rst w) google numpy (embed_images w) docstring docformat source_file.

(** [functools.cache]: results are kept by argument tuple; a call that raises
    leaves no entry. *)
Definition opt_path_eqb (w : world) (a b : option (Path w)) : bool :=
  match a, b with
  | Some p, Some q => path_eqb w p q
  | None, None => true
  | _, _ => false
  end.

Definition args (w : world) : Type := (str * str * option (Path w))%type.

Definition args_eqb (w : world) (a b : args w) : bool :=
  let '(d1, f1, s1) := a in
  let '(d2, f2, s2) := b in
  str_eqb d1 d2 && str_eqb f1 f2 && opt_path_eqb w s1 s2.

Fixpoint cache_get (w : world) (k : args w) (memo : list (args w * str)) : option str :=
  match memo with
  | [] => None
  | (k', v) :: tl => if args_eqb w k' k then Some v else cache_get w k tl
  end.

Definition cached (w : world) (f : str -> str -> option (Path w) -> E str)
    (k : args w) (memo : list (args w * str)) : E str * list (args w * str) :=
  match cache_get w k memo with
  | Some v => ((Ok v, []), memo)
  | None =>
    let '(d, fmt, src) := k in
    match f d fmt src with
    | (Ok v, ws) => ((Ok v, ws), (k, v) :: memo)
    | (Raise e, ws) => ((Raise e, ws), memo)
    end
  end.

(** [convert] as the module exports it. *)
Definition convert_cached (w : world) (docstring docformat : str)
    (source_file : option (Path w)) (memo : list (args w * str))
    : E str * list (args w * str) :=
  cached w (convert w) (docstring, docformat, source_file) memo.

(* ================================================================== *)
(** ** A world to run examples in *)
(* ================================================================== *)

(** Paths as lists of names, innermost first, and a file system given by a
    table of readable files; every other read ends in [OSError]. *)
Definition table_read (files : list (list str * str)) (p : list str) : result str :=
  match find (fun e => if list_eq_dec (list_eq_dec ascii_dec) (fst e) p then true else false)
             files with
  | Some e => Ok (snd e)
  | None => Raise (OSError (py "[Errno 2] No such file or directory"))
  end.

Definition names_eqb (p q : list str) : bool :=
  if list_eq_dec (list_eq_dec ascii_dec) p q then true else false.

Definition names_eqb_refl (p : list str) : names_eqb p p = true :=
  match list_eq_dec (list_eq_dec ascii_dec) p p as d
        return (if d then true else false) = true with
  | left _ => eq_refl
  | right ne => match ne eq_refl with end
  end.

Definition quoted (s : str) : str := [SQ] ++ s ++ [SQ].

Definition message_of (e : exn) : str :=
  match e with
  | AssertionError m | IndexError m | ValueError m | OSError m
  | OtherException _ m | OtherBaseException _ m | RuntimeError m _ => m
  | _ => []
  end.

Definition table_world (files : list (list str * str)) (env : list (str * str)) : world :=
  {| Path := list str;
     here := [];
     parent := @tl str;
     joinpath := fun p name => name :: p;
     path_eqb := names_eqb;
     path_eqb_refl := names_eqb_refl;
     read_text := table_read files;
     read_bytes := table_read files;
     guess_type := fun _ => None;
     b64encode := fun data => data;
     environ := fun name => dict_get name env;
     parse_int := fun _ => None;
     repr_str := quoted;
     repr_path := fun p => match p with
                           | Some names => py "PosixPath(" ++ quoted (join (py "/") (rev names)) ++ py ")"
                           | None => py "None"
                           end;
     exn_str := message_of;
     recursion_limit := 1000 |}.

Definition no_files : world := table_world [] [].

(* ================================================================== *)
(** ** Example docstrings *)
(* ================================================================== *)

Definition google_args_docstring : str :=
  py "Args:\n    x: the input\n    y (int): the count".

Definition google_args_markdown : str :=
  py "\n###### Arguments:\n - **x:**  the input\n - **y (int):**  the count\n\n".

Definition rst_fields_docstring : str := py ":param x: the input\n:return: the result".

Definition rst_fields_markdown : str :=
  py "\n###### Parameters\n - **x**:  the input\n\n###### Returns\n>  the result".

Definition misindented_parameters : str :=
  py "Parameters\n----------\n  x : int\n y : int".


(* ================================================================== *)
(** ** Worlds in which reads fail *)
(* ================================================================== *)


(** A world in which every read of a file ends in the exception [e]. *)
Definition failing_reads (e : exn) : world :=
  {| Path := list str;
     here := [];
     parent := @tl str;
     joinpath := fun p name => name :: p;
     path_eqb := names_eqb;
     path_eqb_refl := names_eqb_refl;
     read_text := fun _ => Raise e;
     read_bytes := fun _ => Raise e;
     guess_type := fun _ => None;
     b64encode := fun data => data;
     environ := fun _ => None;
     parse_int := fun _ => None;
     repr_str := quoted;
     repr_path := fun p => match p with
                           | Some names => py "PosixPath(" ++ quoted (join (py "/") (rev names)) ++ py ")"
                           | None => py "None"
                           end;
     exn_str := message_of;
     recursion_limit := 1000 |}.

(* ================================================================== *)
(** ** What a match is *)
(* ================================================================== *)

(** [matches ml r st st']: the pattern [r] can take the matcher from [st] to
    [st'].  The relation forgets the order in which [run] tries alternatives;
    every result of [run] is one of its instances. *)
Inductive matches (ml : bool) : regex -> mstate -> mstate -> Prop :=
| M_Empty st :
    matches ml Empty st st
| M_Chr p c tl st :
    rest st = c :: tl -> cmatch p c = true ->
    matches ml (Chr p) st (step c tl st)
| M_Seq a b st1 st2 st3 :
    matches ml a st1 st2 -> matches ml b st2 st3 ->
    matches ml (Seq a b) st1 st3
| M_AltL a b st st' :
    matches ml a st st' -> matches ml (Alt a b) st st'
| M_AltR a b st st' :
    matches ml b st st' -> matches ml (Alt a b) st st'
| M_StarNil g a st :
    matches ml (Star g a) st st
| M_StarCons g a st1 st2 st3 :
    matches ml a st1 st2 -> length (rest st2) < length (rest st1) ->
    matches ml (Star g a) st2 st3 ->
    matches ml (Star g a) st1 st3
| M_Group n a st st' :
    matches ml a st st' ->
    matches ml (Group n a) st (set_cap n (consumed st st') st')
| M_Backref n v tl st :
    lookup_cap n (caps st) = Some v -> strip_prefix v (rest st) = Some tl ->
    matches ml (Backref n) st (MState (rev v ++ seen st) tl (caps st))
| M_Bol st :
    at_bol ml st = true -> matches ml Bol st st
| M_Eol st :
    at_eol ml st = true -> matches ml Eol st st
| M_NotAhead a st :
    run ml a st (fun st' => Some st') = None ->
    matches ml (NotAhead a) st st.

(** The numbers of the groups of a pattern. *)
Fixpoint group_ids (r : regex) : list nat :=
  match r with
  | Seq a b | Alt a b => group_ids a ++ group_ids b
  | Star _ a | NotAhead a => group_ids a
  | Group n a => n :: group_ids a
  | _ => []
  end.

(* ================================================================== *)
(** ** Footnotes, in the specification's words *)
(* ================================================================== *)

(** An anonymous marker is [*] or [#]. *)
Definition anonymous_marker (fn_id : str) : bool :=
  str_eqb fn_id (py "*") || str_eqb fn_id (py "#").

(** The ids of one pass in the order of the text: the k-th anonymous marker
    becomes [fn-k], counting from [next]; the other ids lose their leading
    [#] and [*]. *)
Fixpoint numbered (next : nat) (ids : list str) : list str :=
  match ids with
  | [] => []
  | fn_id :: tl =>
    if anonymous_marker fn_id
    then (py "fn-" ++ str_of_nat next) :: numbered (S next) tl
    else lstrip_chars (py "#*") fn_id :: numbered next tl
  end.

(** Put [texts], in order, in the place of the matches of a scan. *)
Fixpoint replace_hits (ps : list piece) (texts : list str) : str :=
  match ps with
  | [] => []
  | Keep c :: tl => c :: replace_hits tl texts
  | Hit m :: tl =>
    match texts with
    | t :: ts => t ++ replace_hits tl ts
    | [] => m_text m ++ replace_hits tl []
    end
  end.

(** A definition [.. [id] content] becomes [[^id]: content]. *)
Definition footnote_definition (p : rmatch * str) : str :=
  let (m, fn_id) := p in
  group_str m 1 ++ py "[^" ++ fn_id ++ py "]: "
  ++ lstrip (indent (group_str m 3) (py "   ")).

(** A reference [[id]_] becomes [[^id]] if the id is defined, and stays as
    it is otherwise. *)
Definition footnote_reference (defined : list str) (p : rmatch * str) : str :=
  let (m, fn_id) := p in
  if in_list fn_id defined then py "[^" ++ fn_id ++ py "]" else m_text m.

Definition spec_footnotes (contents : str) : str :=
  let defs := pieces true footnote_def_re contents in
  let def_ids := numbered 1 (map (fun m => group_str m 2) (hits defs)) in
  let contents := replace_hits defs (map footnote_definition (combine (hits defs) def_ids)) in
  let refs := pieces false footnote_ref_re contents in
  let ref_ids := numbered 1 (map (fun m => group_str m 1) (hits refs)) in
  replace_hits refs (map (footnote_reference def_ids) (combine (hits refs) ref_ids)).

(** The ids that the two footnote patterns capture are never empty and never
    the two-character text [*#], so the test [fn_id in "*#"] of the source
    holds for the two anonymous markers only. *)
Definition marker_test_exact (v : str) : Prop :=
  contains v (py "*#") = anonymous_marker v.

(* ================================================================== *)
(** ** The tail of a NumPy section, in the specification's words *)
(* ================================================================== *)

(** A line that is neither blank nor indented. *)
Definition ends_section (line : str) : bool :=
  negb (is_empty line) && negb (startswith [SP] line).

(** The lines from the first one that is neither blank nor indented. *)
Fixpoint from_section_end (lines : list str) : list str :=
  match lines with
  | [] => []
  | line :: tl => if ends_section line then lines else from_section_end tl
  end.

(** If the first line is indented, the tail is the text from the first later
    line that is neither blank nor indented; otherwise there is no tail. *)
Definition spec_tail (content : str) : str :=
  match split_char NL content with
  | first :: later =>
    if startswith [SP] first then join [NL] (from_section_end later) else []
  | [] => []
  end.

(** The same cut, character by character: a newline ends the section when
    what follows is not a space and not another newline. *)
Definition section_end_here (s : str) : bool :=
  match s with
  | c :: tl =>
    Ascii.eqb NL c
    && negb match tl with
            | d :: _ => Ascii.eqb SP d || Ascii.eqb NL d
            | [] => false
            end
  | [] => false
  end.

Fixpoint cut_section (s : str) : option (str * str) :=
  match s with
  | [] => None
  | c :: tl =>
    if section_end_here s then Some ([], tl)
    else match cut_section tl with
         | Some (a, b) => Some (c :: a, b)
         | None => None
         end
  end.


Definition include_missing_docstring : str :=
  py "Before.\n\n.. include:: missing.txt\n\nAfter ![logo](logo.png).".

(* ================================================================== *)
(** ** Hyperlink targets, as they are written *)
(* ================================================================== *)



Definition links_docstring : str :=
  py ".. _foo: http://x.org\n.. _bar: ftp://y.org\n\n`foo`_ and `bar`_.".

(** The two failures of [_indented_list]. *)
Definition splitter_failure (e : exn) : Prop :=
  (exists msg, e = AssertionError msg) \/ (exists msg, e = IndexError msg).

Definition plain_docstring : str := py "Return the sum of both arguments, or zero.".

(** The test of the loop of [_indented_list] for a line that starts an
    item. *)
Definition starts_item (line : str) : bool :=
  negb (is_empty (strip line) || startswith [SP] line).

(** What the reference pattern can capture as an id: one character, or a
    phrase between backticks. *)
Definition reference_id_shape (v : str) : Prop :=
  (exists c, v = [c]) \/
  (exists t, v = py "`" ++ t ++ py "`" /\ t <> [] /\ ~ In "`"%char t).

Definition bare_reference_docstring : str :=
  py ".. _home: http://x.org\n\nSee home_ and `home`_.".

(* ================================================================== *)
(** * Properties *)
(* ================================================================== *)

Lemma str_eqb_eq (a b : str) : str_eqb a b = true <-> a = b.
Proof. unfold str_eqb. destruct (list_eq_dec ascii_dec a b); split; congruence. Qed.


Lemma _rst_admonitions_unfold (w : world) (depth : nat) (contents : str)
    (source_file : option (Path w)) :
  _rst_admonitions w depth contents source_file =
  re_subE true (admonition_re)
          (_rst_admonition w
             (match depth with
              | 0 => fun _ _ => raise RecursionError
              | S depth' => _rst_admonitions w depth'
              end)
             source_file)
          contents.
Proof. destruct depth; reflexivity. Qed.

(** Running [convert] on a text in which no directive occurs does not depend
    on the world. *)
Ltac run_convert :=
  unfold convert, convert_with, try_block;
  cbv beta iota zeta delta [assign escaped docstring_var emitted];
  unfold rst; rewrite ?_rst_admonitions_unfold;
  vm_compute; try reflexivity.

(** ** The dispatcher *)

(** C9.  When the lower-cased tag contains none of "google", "numpy",
    "restructuredtext" and no source location is given, [convert] returns the
    docstring it was given, and raises and warns nothing. *)
Theorem convert_unknown_tag_identity (w : world) (docstring docformat : str) :
  contains (py "google") (lower docformat) = false ->
  contains (py "numpy") (lower docformat) = false ->
  contains (py "restructuredtext") (lower docformat) = false ->
  convert w docstring docformat None = (Ok docstring, []).
Proof.
  intros Hg Hn Hr.
  unfold convert, convert_with, try_block, rst_flavors.
  cbn [existsb]. rewrite Hg, Hn, Hr. reflexivity.
Qed.

Lemma convert_unknown_tag_identity_witness :
  contains (py "google") (lower (py "Markdown")) = false /\
  contains (py "numpy") (lower (py "Markdown")) = false /\
  contains (py "restructuredtext") (lower (py "Markdown")) = false /\
  convert no_files (py "Args:\n    x: the input") (py "Markdown") None
  = (Ok (py "Args:\n    x: the input"), []).
Proof.
  split; [reflexivity | split; [reflexivity | split; [reflexivity | ]]].
  apply (convert_unknown_tag_identity no_files
           (py "Args:\n    x: the input") (py "Markdown")); reflexivity.
Defined.

(** The tag is compared in lower case, and any tag that merely contains a
    flavour name selects it. *)
Example convert_tag_is_substring :
  convert no_files (py "Args:\n    x: the input") (py "My-GOOGLE-style") None
  = (Ok (py "\n###### Arguments:\n - **x:**  the input\n\n"), []).
Proof. vm_compute. reflexivity. Qed.

(** ** Worked conversions *)



(** C3, as stated, fails: the output for the Google example has a
    "###### Arguments:" heading, but neither "- **x:** the input" nor
    "- **y (int):** the count" occurs in it. *)
Lemma google_args_single_space_absent :
  exists out,
    convert no_files google_args_docstring (py "google") None = (Ok out, []) /\
    contains (py "###### Arguments:") out = true /\
    contains (py "- **x:** the input") out = false /\
    contains (py "- **y (int):** the count") out = false.
Proof. exists google_args_markdown. vm_compute. repeat split. Qed.

(** C3, amended.  In every world the Google example converts to a
    "###### Arguments:" heading followed by the bullets
    "- **x:**  the input" and "- **y (int):**  the count": the label keeps its
    colon inside the bold markers, and two spaces separate it from the
    description (the space the template puts after the label and the space
    that follows the colon in the source). *)
Theorem google_args_example (w : world) :
  convert w google_args_docstring (py "google") None = (Ok google_args_markdown, []) /\
  contains (py "###### Arguments:") google_args_markdown = true /\
  contains (py "- **x:**  the input") google_args_markdown = true /\
  contains (py "- **y (int):**  the count") google_args_markdown = true.
Proof. split; [run_convert | vm_compute; repeat split]. Qed.



(** C4, as stated, fails: the output for the field-list example has no
    bullet "- **x**: the input". *)
Lemma rst_fields_single_space_absent :
  exists out,
    convert no_files rst_fields_docstring (py "restructuredtext") None = (Ok out, []) /\
    contains (py "- **x**: the input") out = false.
Proof. exists rst_fields_markdown. vm_compute. repeat split. Qed.

(** C4, amended.  In every world the field-list example converts to a
    "###### Parameters" section with the bullet "- **x**:  the input" (two
    spaces: the one the label ends with and the one that follows the colon in
    the source) and a "###### Returns" section whose body is the blockquote
    line ">  the result". *)
Theorem rst_fields_example (w : world) :
  convert w rst_fields_docstring (py "restructuredtext") None
  = (Ok rst_fields_markdown, []) /\
  contains (py "###### Parameters\n - **x**:  the input\n") rst_fields_markdown = true /\
  contains (py "###### Returns\n>  the result") rst_fields_markdown = true.
Proof. split; [run_convert | vm_compute; repeat split]. Qed.

(** The other conversions the specification lists as examples. *)
Example numpy_parameters_example (w : world) :
  convert w (py "Parameters\n----------\nx : int\n    the input") (py "numpy") None
  = (Ok (py "###### Parameters\n - **x** (int):\n   the input\n\n"), []).
Proof. run_convert. Qed.

Example rst_note_example (w : world) :
  convert w (py ".. note::\n\n   hello") (py "restructuredtext") None
  = (Ok (py "<div class=\x22alert note\x22 markdown=\x221\x22>\nhello\n</div>\n"), []).
Proof. run_convert. Qed.

Example rst_footnote_example (w : world) :
  convert w (py "See [1]_ for detail.\n\n.. [1] Some note.") (py "restructuredtext") None
  = (Ok (py "See [^1] for detail.\n\n[^1]: Some note."), []).
Proof. run_convert. Qed.

(** ** The splitter's precondition and the NumPy converter *)


(** C8 fails on the code.  The section body "  x : int\n y : int" starts with
    a space and has no unindented line, so [numpy] keeps it whole; [dedent]
    removes the common margin of one space only, and [_indented_list] is
    called with " x : int\ny : int".  Its first assertion fails, and [convert]
    reports the failure. *)
Theorem numpy_breaks_splitter_precondition (w : world) :
  split_tail (py "  x : int\n y : int") = Ok (py "  x : int\n y : int", []) /\
  dedent (py "  x : int\n y : int") = py " x : int\ny : int" /\
  _indented_list (py " x : int\ny : int") = Raise (AssertionError (py " x : int\ny : int")) /\
  numpy misindented_parameters = raise (AssertionError (py " x : int\ny : int")) /\
  convert w misindented_parameters (py "numpy") None
  = (Raise (RuntimeError (failure_message w misindented_parameters None (py "numpy"))
                         (AssertionError (py " x : int\ny : int"))), []).
Proof.
  split; [vm_compute; reflexivity|].
  split; [vm_compute; reflexivity|].
  split; [vm_compute; reflexivity|].
  split; [vm_compute; reflexivity|].
  run_convert.
Qed.

(** A section body whose first line holds only a space reaches the splitter
    as a text that starts with a newline, and fails its second assertion. *)
Example numpy_blank_first_line :
  numpy (py "Returns\n-------\n \n x") = raise (AssertionError (py "\nx")).
Proof. vm_compute. reflexivity. Qed.

(** With a first line that [splitlines] ends at once, both assertions pass and
    the loop finds no item to extend. *)
Example numpy_index_error :
  numpy (py "Returns\n-------\n\rx")
  = raise (IndexError (py "list index out of range")).
Proof. vm_compute. reflexivity. Qed.

(** ** The failure boundary of [convert] *)






(** When the first converter that runs is the one that fails, the text in
    the diagnostic is the docstring that was passed in. *)
Lemma try_block_first_failure (w : world)
    (rst_stage : str -> option (Path w) -> E str)
    (google_stage numpy_stage : str -> E str)
    (embed_stage : str -> Path w -> E str)
    (docstring docformat : str) (source_file : option (Path w))
    (e : exn) (ws : list str) :
  existsb (fun x => contains x docformat) rst_flavors = true ->
  rst_stage docstring source_file = (Raise e, ws) ->
  let f := try_block w rst_stage google_stage numpy_stage embed_stage
                     docstring docformat source_file in
  docstring_var f = docstring /\ escaped f = Some e.
Proof.
  intros Hen Hr. unfold try_block, assign. cbn [escaped docstring_var emitted].
  rewrite Hen, Hr. cbn. destruct source_file; cbn; auto.
Qed.

(** An interrupt that arrives while an image file is read passes both the
    handler in [embed_images] and the one in [convert]; [SystemExit] at the
    same place is wrapped. *)
Example interrupt_propagates :
  convert (failing_reads KeyboardInterrupt) (py "![logo](logo.png)") (py "markdown")
          (Some [py "mod.py"])
  = (Raise KeyboardInterrupt, []).
Proof. vm_compute. reflexivity. Qed.

Example system_exit_is_wrapped :
  convert (failing_reads SystemExit) (py "![logo](logo.png)") (py "markdown")
          (Some [py "mod.py"])
  = (Raise (RuntimeError
              (failure_message (failing_reads SystemExit) (py "![logo](logo.png)")
                               (Some [py "mod.py"]) (py "markdown"))
              SystemExit), []).
Proof. vm_compute. reflexivity. Qed.

(** ** Memoisation *)




(** A value found in the table is returned without running the converters,
    so a successful result outlives later changes of the files it came from. *)
Example cached_result_survives_file_change :
  let before := table_world [([py "logo.png"], py "PNG")] [] in
  let after := table_world [] [] in
  let first := convert_cached before (py "![logo](logo.png)") (py "markdown")
                              (Some [py "mod.py"]) [] in
  fst first = (Ok (py "![logo](data:None;base64,PNG)"), []) /\
  fst (cached after (convert after)
              (py "![logo](logo.png)", py "markdown", Some [py "mod.py"]) (snd first))
  = (Ok (py "![logo](data:None;base64,PNG)"), []) /\
  convert after (py "![logo](logo.png)") (py "markdown") (Some [py "mod.py"])
  = (Ok (py "![logo](logo.png)"), []).
Proof. vm_compute. repeat split. Qed.

(** ** The matcher *)

Section Matcher.

Variable ml : bool.

(** Whatever [run] returns came out of its continuation at a state that the
    pattern reaches. *)
Lemma run_sound (r : regex) :
  forall st k res,
    run ml r st k = Some res ->
    exists st', matches ml r st st' /\ k st' = Some res.
Proof.
  induction r as [|p|a IHa b IHb|a IHa b IHb|g a IHa|n a IHa|n| | |a IHa];
    intros st k res H; cbn [run] in H.
  - exists st. split; [constructor|exact H].
  - destruct (rest st) as [|c tl] eqn:Hr; [discriminate|].
    destruct (cmatch p c) eqn:Hc; [|discriminate].
    exists (step c tl st). split; [now constructor|exact H].
  - apply IHa in H. destruct H as [st1 [H1 H]].
    apply IHb in H. destruct H as [st2 [H2 H]].
    exists st2. split; [econstructor; eauto|exact H].
  - destruct (run ml a st k) eqn:Ha.
    + injection H as <-. apply IHa in Ha. destruct Ha as [st1 [H1 Hk]].
      exists st1. split; [now apply M_AltL|exact Hk].
    + apply IHb in H. destruct H as [st1 [H1 Hk]].
      exists st1. split; [now apply M_AltR|exact Hk].
  - revert H. generalize (length (rest st)) as n. intros n. revert st res.
    induction n as [|n IHn]; intros st res H; cbn [star_loop] in H.
    + exists st. split; [constructor|exact H].
    + assert (Hiter : forall res',
                run ml a st (fun st' =>
                  if length (rest st') <? length (rest st)
                  then star_loop g (run ml a) k n st' else None) = Some res' ->
                exists st', matches ml (Star g a) st st' /\ k st' = Some res').
      { intros res' Hrun. apply IHa in Hrun. destruct Hrun as [st1 [H1 Hk]].
        destruct (length (rest st1) <? length (rest st)) eqn:Hlt; [|discriminate].
        apply Nat.ltb_lt in Hlt.
        apply IHn in Hk. destruct Hk as [st2 [H2 Hk]].
        exists st2. split; [econstructor; eauto|exact Hk]. }
      cbv zeta in H. destruct g.
      * match type of H with
        | match ?x with _ => _ end = _ => destruct x eqn:Hx
        end.
        -- injection H as <-. now apply Hiter.
        -- exists st. split; [constructor|exact H].
      * destruct (k st) eqn:Hk.
        -- injection H as <-. exists st. split; [constructor|exact Hk].
        -- now apply Hiter.
  - apply IHa in H. destruct H as [st1 [H1 Hk]].
    exists (set_cap n (consumed st st1) st1). split; [now constructor|exact Hk].
  - destruct (lookup_cap n (caps st)) as [v|] eqn:Hl; [|discriminate].
    destruct (strip_prefix v (rest st)) as [tl|] eqn:Hs; [|discriminate].
    eexists. split; [econstructor; eauto|exact H].
  - destruct (at_bol ml st) eqn:Hb; [|discriminate].
    exists st. split; [now constructor|exact H].
  - destruct (at_eol ml st) eqn:Hb; [|discriminate].
    exists st. split; [now constructor|exact H].
  - destruct (run ml a st (fun st' => Some st')) eqn:Hn; [discriminate|].
    exists st. split; [now constructor|exact H].
Qed.

Lemma strip_prefix_app (v s tl : str) : strip_prefix v s = Some tl -> s = v ++ tl.
Proof.
  revert s. induction v as [|a v IH]; intros s H; cbn in H.
  - now injection H as ->.
  - destruct s as [|b s]; [discriminate|].
    destruct (Ascii.eqb a b) eqn:E; [|discriminate].
    apply Ascii.eqb_eq in E. subst b. cbn. f_equal. now apply IH.
Qed.

(** A match moves forward over a piece [t] of the text ahead. *)
Lemma matches_moves (r : regex) (st st' : mstate) :
  matches ml r st st' ->
  exists t, rest st = t ++ rest st' /\ seen st' = rev t ++ seen st.
Proof.
  induction 1.
  - exists []. auto.
  - exists [c]. cbn. auto.
  - destruct IHmatches1 as [t1 [R1 S1]]. destruct IHmatches2 as [t2 [R2 S2]].
    exists (t1 ++ t2). rewrite R1, R2, S2, S1, rev_app_distr, !app_assoc. auto.
  - assumption.
  - assumption.
  - exists []. auto.
  - destruct IHmatches1 as [t1 [R1 S1]]. destruct IHmatches2 as [t2 [R2 S2]].
    exists (t1 ++ t2). rewrite R1, R2, S2, S1, rev_app_distr, !app_assoc. auto.
  - exact IHmatches.
  - exists v. cbn. split; [now apply strip_prefix_app|reflexivity].
  - exists []. auto.
  - exists []. auto.
  - exists []. auto.
Qed.

Lemma consumed_spec (st st' : mstate) (t : str) :
  rest st = t ++ rest st' -> consumed st st' = t.
Proof.
  intros H. unfold consumed. rewrite H, length_app.
  replace (length t + length (rest st') - length (rest st')) with (length t) by lia.
  now rewrite firstn_app, Nat.sub_diag, firstn_all, firstn_O, app_nil_r.
Qed.

(** A match only adds bindings, and only for the groups of the pattern. *)
Lemma matches_caps (r : regex) (st st' : mstate) :
  matches ml r st st' ->
  exists new, caps st' = new ++ caps st /\
              Forall (fun kv => In (fst kv) (group_ids r)) new.
Proof.
  induction 1; cbn [group_ids].
  - exists []. auto.
  - exists []. auto.
  - destruct IHmatches1 as [n1 [C1 F1]]. destruct IHmatches2 as [n2 [C2 F2]].
    exists (n2 ++ n1). rewrite C2, C1, app_assoc. split; [reflexivity|].
    apply Forall_app. split; eapply Forall_impl; eauto; cbn; intros;
      apply in_or_app; auto.
  - destruct IHmatches as [n1 [C1 F1]]. exists n1. split; [assumption|].
    eapply Forall_impl; eauto; cbn; intros; apply in_or_app; auto.
  - destruct IHmatches as [n1 [C1 F1]]. exists n1. split; [assumption|].
    eapply Forall_impl; eauto; cbn; intros; apply in_or_app; auto.
  - exists []. auto.
  - destruct IHmatches1 as [n1 [C1 F1]]. destruct IHmatches2 as [n2 [C2 F2]].
    exists (n2 ++ n1). rewrite C2, C1, app_assoc. split; [reflexivity|].
    apply Forall_app. split; assumption.
  - destruct IHmatches as [n1 [C1 F1]].
    exists ((n, consumed st st') :: n1). cbn. rewrite C1. split; [reflexivity|].
    constructor; [cbn; auto|].
    eapply Forall_impl; eauto; cbn; intros; auto.
  - exists []. auto.
  - exists []. auto.
  - exists []. auto.
  - exists []. auto.
Qed.

End Matcher.

Section MatcherFacts.

Variable ml : bool.

Lemma matches_Seq_inv (a b : regex) (st st' : mstate) :
  matches ml (Seq a b) st st' ->
  exists st1, matches ml a st st1 /\ matches ml b st1 st'.
Proof. inversion 1; subst; eauto. Qed.

Lemma matches_Alt_inv (a b : regex) (st st' : mstate) :
  matches ml (Alt a b) st st' -> matches ml a st st' \/ matches ml b st st'.
Proof. inversion 1; subst; auto. Qed.

Lemma matches_Group_inv (n : nat) (a : regex) (st st' : mstate) :
  matches ml (Group n a) st st' ->
  exists st1, matches ml a st st1 /\ st' = set_cap n (consumed st st1) st1.
Proof. inversion 1; subst; eauto. Qed.

Lemma matches_Chr_inv (p : cpred) (st st' : mstate) :
  matches ml (Chr p) st st' ->
  exists c tl, rest st = c :: tl /\ cmatch p c = true /\ st' = step c tl st.
Proof. inversion 1; subst; eauto. Qed.

Lemma matches_Empty_inv (st st' : mstate) : matches ml Empty st st' -> st' = st.
Proof. now inversion 1. Qed.


Lemma matches_Eol_inv (st st' : mstate) :
  matches ml Eol st st' -> st' = st /\ at_eol ml st = true.
Proof. inversion 1; subst; auto. Qed.

(** A literal word matches itself and binds nothing. *)
Lemma matches_Lits (t : str) (st st' : mstate) :
  matches ml (Lits t) st st' ->
  rest st = t ++ rest st' /\ seen st' = rev t ++ seen st /\ caps st' = caps st.
Proof.
  revert st. induction t as [|c t IH]; intros st H.
  - cbn in H. apply matches_Empty_inv in H. subst. auto.
  - destruct t as [|d t].
    + cbn in H. apply matches_Chr_inv in H. destruct H as [c' [tl [R [C ->]]]].
      cbn in C. apply Ascii.eqb_eq in C. subst c'. cbn. auto.
    + change (Lits (c :: d :: t)) with (Seq (Chr (PLit c)) (Lits (d :: t))) in H.
      apply matches_Seq_inv in H. destruct H as [st1 [H1 H2]].
      apply matches_Chr_inv in H1. destruct H1 as [c' [tl [R [C ->]]]].
      cbn in C. apply Ascii.eqb_eq in C. subst c'.
      apply IH in H2. destruct H2 as [R2 [S2 C2]]. cbn [rest seen caps step] in *.
      rewrite R, R2, S2, C2. cbn [rev]. rewrite <- !app_assoc. cbn. auto.
Qed.

(** A starred character class moves over characters of the class and binds
    nothing. *)
Lemma matches_Star_Chr (g : bool) (p : cpred) (st st' : mstate) :
  matches ml (Star g (Chr p)) st st' ->
  exists t, rest st = t ++ rest st' /\ seen st' = rev t ++ seen st /\
            caps st' = caps st /\ Forall (fun c => cmatch p c = true) t.
Proof.
  remember (Star g (Chr p)) as r eqn:Hr. induction 1; try discriminate.
  - exists []. auto.
  - injection Hr as -> ->. specialize (IHmatches2 eq_refl).
    destruct IHmatches2 as [t [R [S [C F]]]].
    apply matches_Chr_inv in H. destruct H as [c [tl [R1 [C1 ->]]]].
    cbn [rest seen caps step] in *.
    exists (c :: t). rewrite R1, R, S, C. cbn [rev]. rewrite <- app_assoc. cbn.
    repeat split; auto.
Qed.

Lemma matches_Plus_Chr (g : bool) (p : cpred) (st st' : mstate) :
  matches ml (Plus g (Chr p)) st st' ->
  exists c t, rest st = c :: t ++ rest st' /\ seen st' = rev (c :: t) ++ seen st /\
              caps st' = caps st /\ Forall (fun c => cmatch p c = true) (c :: t).
Proof.
  intros H. apply matches_Seq_inv in H. destruct H as [st1 [H1 H2]].
  apply matches_Chr_inv in H1. destruct H1 as [c [tl [R1 [C1 ->]]]].
  apply matches_Star_Chr in H2. destruct H2 as [t [R [S [C F]]]].
  cbn [rest seen caps step] in *.
  exists c, t. rewrite R1, R, S, C. cbn [rev]. rewrite <- app_assoc. cbn.
  repeat split; auto.
Qed.

(** What [match_at] returns is a match of the pattern that starts where it
    was tried. *)
Lemma match_at_sound (r : regex) (before after : str) (m : rmatch) :
  match_at ml r before after = Some m ->
  exists st', matches ml r (MState before after []) st' /\
              m_before m = rev before /\
              after = m_text m ++ m_after m /\
              m_after m = rest st' /\
              m_caps m = caps st'.
Proof.
  unfold match_at. intros H.
  destruct (run ml r (MState before after []) (fun st' => Some st')) as [st'|] eqn:Hrun;
    [|discriminate].
  injection H as <-. cbn [m_before m_text m_after m_caps].
  apply run_sound in Hrun. destruct Hrun as [st1 [Hm Hk]]. injection Hk as ->.
  exists st'. repeat split; auto.
  destruct (matches_moves ml r _ _ Hm) as [t [R _]]. cbn [rest] in R.
  pose proof (consumed_spec (MState before after []) st' t R) as Hc.
  unfold consumed in Hc. cbn [rest] in Hc. rewrite Hc. exact R.
Qed.

Lemma match_at_text (r : regex) (before after : str) (m : rmatch) :
  match_at ml r before after = Some m ->
  exists n, m_text m = firstn n after /\ n <= length after.
Proof.
  unfold match_at. intros H.
  destruct (run ml r (MState before after []) (fun st' => Some st')) as [st'|];
    [|discriminate].
  injection H as <-. cbn [m_text]. eexists. split; [reflexivity|lia].
Qed.

(** Every match that a scan reports was found by [match_at] somewhere in the
    text. *)
Lemma scan_hits (r : regex) :
  forall (after before : str) (skip : nat) (m : rmatch),
    In (Hit m) (scan ml r before after skip) ->
    exists b a, match_at ml r b a = Some m /\ rev b ++ a = rev before ++ after.
Proof.
  induction after as [|c tl IH]; intros before skip m Hin.
  - destruct skip; cbn in Hin; [|contradiction].
    destruct (match_at ml r before []) as [m'|] eqn:Hm; cbn in Hin; [|contradiction].
    destruct Hin as [Hin|[]]. injection Hin as ->. eauto.
  - assert (Hstep : forall k, In (Hit m) (scan ml r (c :: before) tl k) ->
              exists b a, match_at ml r b a = Some m /\
                          rev b ++ a = rev before ++ c :: tl).
    { intros k Hk. destruct (IH _ _ _ Hk) as [b [a [H1 H2]]].
      exists b, a. split; [assumption|]. rewrite H2. cbn. now rewrite <- app_assoc. }
    destruct skip; cbn [scan] in Hin.
    + destruct (match_at ml r before (c :: tl)) as [m'|] eqn:Hm.
      * destruct Hin as [Hin|Hin]; [injection Hin as ->; eauto|].
        destruct (length (m_text m')).
        -- destruct Hin as [Hin|Hin]; [discriminate|]. eauto.
        -- eauto.
      * destruct Hin as [Hin|Hin]; [discriminate|]. eauto.
    + eauto.
Qed.

Lemma in_hits (ps : list piece) (m : rmatch) : In m (hits ps) <-> In (Hit m) ps.
Proof.
  induction ps as [|[c|m'] ps IH]; cbn; [tauto| |].
  - rewrite IH. split; [auto|]. intros [H|H]; [discriminate|assumption].
  - rewrite IH. split; intros [H|H]; auto; [left; congruence|].
    injection H as ->. auto.
Qed.

Lemma pieces_hits (r : regex) (s : str) (m : rmatch) :
  In m (hits (pieces ml r s)) ->
  exists b a, match_at ml r b a = Some m /\ rev b ++ a = s.
Proof. intros H. apply in_hits in H. apply scan_hits in H. exact H. Qed.

(** Putting every match back where it was found restores the text. *)
Lemma scan_restores (r : regex) :
  forall (after before : str) (skip : nat),
    sub_pieces m_text (scan ml r before after skip) = skipn skip after.
Proof.
  induction after as [|c tl IH]; intros before skip.
  - destruct skip; cbn; [|reflexivity].
    destruct (match_at ml r before []) as [m|] eqn:Hm; cbn; [|reflexivity].
    destruct (match_at_text _ _ _ _ Hm) as [n [Ht _]]. rewrite Ht, firstn_nil. reflexivity.
  - destruct skip; cbn [scan skipn].
    + destruct (match_at ml r before (c :: tl)) as [m|] eqn:Hm; cbn [sub_pieces].
      * destruct (match_at_text _ _ _ _ Hm) as [n [Ht Hn]]. rewrite Ht.
        rewrite length_firstn, Nat.min_l by exact Hn.
        destruct n as [|n]; cbn [sub_pieces firstn app].
        -- rewrite IH. reflexivity.
        -- rewrite IH. f_equal. apply firstn_skipn.
      * rewrite IH. reflexivity.
    + apply IH.
Qed.

Lemma pieces_restore (r : regex) (s : str) : sub_pieces m_text (pieces ml r s) = s.
Proof. unfold pieces. now rewrite scan_restores. Qed.

End MatcherFacts.

(** A replacement function that returns every match as it is changes
    nothing. *)
Lemma sub_pieces_ext (f g : rmatch -> str) (ps : list piece) :
  (forall m, In m (hits ps) -> f m = g m) -> sub_pieces f ps = sub_pieces g ps.
Proof.
  induction ps as [|[c|m] ps IH]; intros H; cbn; [reflexivity| |].
  - f_equal. apply IH. exact H.
  - rewrite (H m) by (cbn; auto). f_equal. apply IH. intros m' Hm'. apply H. cbn. auto.
Qed.

Lemma re_sub_unchanged (ml : bool) (r : regex) (f : rmatch -> str) (s : str) :
  (forall m, In m (hits (pieces ml r s)) -> f m = m_text m) -> re_sub ml r f s = s.
Proof.
  intros H. unfold re_sub. rewrite (sub_pieces_ext f m_text _ H). apply pieces_restore.
Qed.

(** ** Footnotes *)

Lemma lookup_cap_skip (n : nat) (ids : list nat) (new cs : list (nat * str)) :
  Forall (fun kv => In (fst kv) ids) new -> ~ In n ids ->
  lookup_cap n (new ++ cs) = lookup_cap n cs.
Proof.
  intros F Hn. induction F as [|[k v] new Hk F IH]; cbn; [reflexivity|].
  destruct (Nat.eqb k n) eqn:E; [|exact IH].
  apply Nat.eqb_eq in E. subst k. now elim Hn.
Qed.

Lemma str_eqb_neq (a b : str) : a <> b -> str_eqb a b = false.
Proof. intros H. unfold str_eqb. destruct (list_eq_dec ascii_dec a b); congruence. Qed.

Lemma footnote_id_shape (ml : bool) (st st' : mstate) :
  matches ml footnote_id_re st st' -> marker_test_exact (consumed st st').
Proof.
  intros H. unfold footnote_id_re in H. apply matches_Alt_inv in H. destruct H as [H|H].
  - apply matches_Plus_Chr in H. destruct H as [c [t [R [_ [_ F]]]]].
    rewrite (consumed_spec st st' (c :: t)) by exact R.
    inversion F as [|? ? Hc _]; subst.
    unfold marker_test_exact, anonymous_marker.
    assert (c <> "*"%char) by (intros ->; discriminate Hc).
    assert (c <> "#"%char) by (intros ->; discriminate Hc).
    change (py "*#") with ["*"%char; "#"%char].
    change (py "*") with ["*"%char]. change (py "#") with ["#"%char].
    rewrite !str_eqb_neq by congruence.
    cbn [contains startswith].
    destruct (Ascii.eqb_spec c "*"); [contradiction|].
    destruct (Ascii.eqb_spec c "#"); [contradiction|].
    reflexivity.
  - apply matches_Seq_inv in H. destruct H as [st1 [H1 H2]].
    apply matches_Chr_inv in H1. destruct H1 as [c [tl [R1 [C1 ->]]]].
    apply matches_Star_Chr in H2. destruct H2 as [t [R [_ [_ F]]]].
    cbn [rest step] in R.
    rewrite (consumed_spec st st' (c :: t)) by (rewrite R1, R; reflexivity).
    unfold marker_test_exact, anonymous_marker.
    change (py "*#") with ["*"%char; "#"%char].
    change (py "*") with ["*"%char]. change (py "#") with ["#"%char].
    destruct t as [|d t].
    + cbn [cmatch existsb citem_mem] in C1.
      rewrite orb_false_r in C1. apply orb_true_iff in C1.
      destruct C1 as [C1|C1]; apply Ascii.eqb_eq in C1; subst c; reflexivity.
    + inversion F as [|? ? Hd _]; subst.
      assert (d <> "#"%char) by (intros ->; discriminate Hd).
      rewrite !str_eqb_neq by congruence.
      cbn [contains startswith].
      destruct (Ascii.eqb_spec d "#"); [contradiction|].
      rewrite !andb_false_r. reflexivity.
Qed.

Lemma footnote_def_id (m : rmatch) (b a : str) :
  match_at true footnote_def_re b a = Some m -> marker_test_exact (group_str m 2).
Proof.
  intros H. apply match_at_sound in H.
  destruct H as [st' [H [_ [_ [_ Hc]]]]].
  unfold footnote_def_re in H. cbn [Seqs] in H.
  repeat (apply matches_Seq_inv in H; let s := fresh "s" in let Hs := fresh "Hs" in
          destruct H as [s [Hs H]]).
  apply matches_Group_inv in Hs4. destruct Hs4 as [s5' [Hid ->]].
  apply matches_Lits in Hs5. destruct Hs5 as [_ [_ C5]]. cbn [caps set_cap] in C5.
  apply matches_caps in Hs6. destruct Hs6 as [new [C6 F6]].
  apply matches_Eol_inv in H. destruct H as [-> _].
  unfold group_str, group. rewrite Hc, C6.
  rewrite (lookup_cap_skip 2 _ new _ F6).
  - rewrite C5. cbn [lookup_cap Nat.eqb]. eapply footnote_id_shape; eauto.
  - cbn. intuition discriminate.
Qed.

Lemma footnote_ref_id (m : rmatch) (b a : str) :
  match_at false footnote_ref_re b a = Some m -> marker_test_exact (group_str m 1).
Proof.
  intros H. apply match_at_sound in H.
  destruct H as [st' [H [_ [_ [_ Hc]]]]].
  unfold footnote_ref_re in H. cbn [Seqs] in H.
  apply matches_Seq_inv in H. destruct H as [s0 [_ H]].
  apply matches_Seq_inv in H. destruct H as [s1 [Hg H]].
  apply matches_Group_inv in Hg. destruct Hg as [s1' [Hid ->]].
  apply matches_Lits in H. destruct H as [_ [_ C]]. cbn [caps set_cap] in C.
  unfold group_str, group. rewrite Hc, C. cbn [lookup_cap Nat.eqb].
  eapply footnote_id_shape; eauto.
Qed.

Lemma in_list_rev (x : str) (l acc : list str) :
  in_list x (rev l ++ acc) = in_list x (l ++ acc).
Proof.
  unfold in_list. rewrite !existsb_app. f_equal.
  induction l as [|a l IH]; cbn; [reflexivity|].
  rewrite existsb_app, IH. cbn. rewrite orb_false_r. apply orb_comm.
Qed.

Lemma lstrip_fn (x : str) :
  lstrip_chars (py "#*") (py "fn-" ++ x) = py "fn-" ++ x.
Proof. reflexivity. Qed.

(** The definition pass: threading the counter and the set through the
    replacement function numbers the definitions by position. *)
Lemma register_pass (ps : list piece) :
  (forall m, In m (hits ps) -> marker_test_exact (group_str m 2)) ->
  forall (defined : list str) (next : nat),
    let ids := numbered next (map (fun m => group_str m 2) (hits ps)) in
    exists next',
      sub_piecesS register_footnote ps (FnVars defined next)
      = (replace_hits ps (map footnote_definition (combine (hits ps) ids)),
         FnVars (rev ids ++ defined) next').
Proof.
  induction ps as [|[c|m] ps IH]; intros Hv defined next; cbn [hits map numbered].
  - exists next. reflexivity.
  - destruct (IH Hv defined next) as [n' E]. exists n'.
    cbn [sub_piecesS replace_hits]. cbv zeta in E. rewrite E. reflexivity.
  - assert (Hm : marker_test_exact (group_str m 2)) by (apply Hv; cbn; auto).
    assert (Hv' : forall m', In m' (hits ps) -> marker_test_exact (group_str m' 2))
      by (intros; apply Hv; cbn; auto).
    cbn [sub_piecesS]. unfold register_footnote at 1, resolve_fn_id.
    rewrite Hm. cbv zeta.
    destruct (anonymous_marker (group_str m 2)); cbn [footnotes autonum].
    + rewrite lstrip_fn.
      destruct (IH Hv' (@cons str (py "fn-" ++ str_of_nat next) defined) (next + 1))
        as [n' E].
      exists n'. cbv zeta in E. rewrite E.
      replace (next + 1) with (S next) by lia.
      cbn [combine map replace_hits footnote_definition rev].
      f_equal. f_equal. now rewrite <- app_assoc.
    + destruct (IH Hv' (@cons str (lstrip_chars (py "#*") (group_str m 2)) defined) next)
        as [n' E].
      exists n'. cbv zeta in E. rewrite E.
      cbn [combine map replace_hits footnote_definition rev].
      f_equal. f_equal. now rewrite <- app_assoc.
Qed.

(** The reference pass: its own count, and a reference is rewritten exactly
    when its id is in the set. *)
Lemma reference_pass (ps : list piece) :
  (forall m, In m (hits ps) -> marker_test_exact (group_str m 1)) ->
  forall (defined : list str) (next : nat),
    let ids := numbered next (map (fun m => group_str m 1) (hits ps)) in
    fst (sub_piecesS replace_references ps (FnVars defined next))
    = replace_hits ps (map (footnote_reference defined) (combine (hits ps) ids)).
Proof.
  induction ps as [|[c|m] ps IH]; intros Hv defined next; cbn [hits map numbered].
  - reflexivity.
  - specialize (IH Hv defined next). cbv zeta in IH.
    cbn [sub_piecesS replace_hits].
    destruct (sub_piecesS replace_references ps (FnVars defined next)) as [out s2].
    cbn [fst] in *. now rewrite IH.
  - assert (Hm : marker_test_exact (group_str m 1)) by (apply Hv; cbn; auto).
    assert (Hv' : forall m', In m' (hits ps) -> marker_test_exact (group_str m' 1))
      by (intros; apply Hv; cbn; auto).
    cbn [sub_piecesS]. unfold replace_references at 1, resolve_fn_id.
    rewrite Hm. cbv zeta.
    destruct (anonymous_marker (group_str m 1)); cbn [footnotes autonum].
    + rewrite lstrip_fn.
      specialize (IH Hv' defined (next + 1)). cbv zeta in IH.
      replace (next + 1) with (S next) in * by lia.
      cbn [combine map replace_hits footnote_reference].
      destruct (in_list (py "fn-" ++ str_of_nat next) defined);
        destruct (sub_piecesS replace_references ps (FnVars defined (S next)))
          as [out s2]; cbn [fst] in *; now rewrite IH.
    + specialize (IH Hv' defined next). cbv zeta in IH.
      cbn [combine map replace_hits footnote_reference].
      destruct (in_list (lstrip_chars (py "#*") (group_str m 1)) defined);
        destruct (sub_piecesS replace_references ps (FnVars defined next))
          as [out s2]; cbn [fst] in *; now rewrite IH.
Qed.

Lemma replace_hits_ext (f g : rmatch * str -> str) (ps : list piece) (ids : list str) :
  (forall p, f p = g p) ->
  replace_hits ps (map f (combine (hits ps) ids))
  = replace_hits ps (map g (combine (hits ps) ids)).
Proof.
  intros H. revert ids. induction ps as [|[c|m] ps IH]; intros ids; cbn; [reflexivity| |].
  - f_equal. apply IH.
  - destruct ids as [|i ids]; cbn.
    + reflexivity.
    + rewrite H. f_equal. apply IH.
Qed.

Lemma footnotes_by_position (contents : str) :
  _rst_footnotes contents = spec_footnotes contents.
Proof.
  unfold _rst_footnotes, spec_footnotes, re_subS.
  destruct (register_pass (pieces true footnote_def_re contents)) with
    (defined := @nil str) (next := 1) as [n' E].
  { intros m Hm. apply pieces_hits in Hm. destruct Hm as [b [a [Hm _]]].
    eapply footnote_def_id; eauto. }
  cbv zeta in E. rewrite E. cbn [footnotes].
  rewrite reference_pass.
  - apply replace_hits_ext. intros [m i]. unfold footnote_reference.
    now rewrite in_list_rev, app_nil_r.
  - intros m Hm. apply pieces_hits in Hm. destruct Hm as [b [a [Hm _]]].
    eapply footnote_ref_id; eauto.
Qed.

(** C5.  [_rst_footnotes] computes what the specification describes: the
    definitions are numbered by their own count from 1 and registered; the
    references are numbered by a second count, again from 1, whatever the
    first one reached; a reference becomes [[^id]] if its id is among the
    registered ones and is left as it was found otherwise. *)
Theorem rst_footnotes_two_counters (contents : str) :
  _rst_footnotes contents
  = let defs := pieces true footnote_def_re contents in
    let def_ids := numbered 1 (map (fun m => group_str m 2) (hits defs)) in
    let contents :=
      replace_hits defs (map footnote_definition (combine (hits defs) def_ids)) in
    let refs := pieces false footnote_ref_re contents in
    let ref_ids := numbered 1 (map (fun m => group_str m 1) (hits refs)) in
    replace_hits refs (map (footnote_reference def_ids) (combine (hits refs) ref_ids)).
Proof. exact (footnotes_by_position contents). Qed.

(** Two anonymous references are numbered 1 and 2 although the definitions
    before them already used both numbers, and a third one, for which no
    definition exists, is left as it is. *)
Example footnote_counters_example :
  _rst_footnotes (py ".. [#] first\n.. [#] second\n\nSee [#]_, [#]_ and [#]_, or [7]_.")
  = py "[^fn-1]: first\n[^fn-2]: second\n\nSee [^fn-1], [^fn-2] and [#]_, or [7]_.".
Proof. vm_compute. reflexivity. Qed.

Lemma replace_hits_nil (ps : list piece) : replace_hits ps [] = sub_pieces m_text ps.
Proof. induction ps as [|[c|m] ps IH]; cbn; [reflexivity| |]; now rewrite IH. Qed.

Lemma replace_hits_undefined (ps : list piece) (ids : list str) :
  replace_hits ps (map (footnote_reference []) (combine (hits ps) ids))
  = sub_pieces m_text ps.
Proof.
  revert ids. induction ps as [|[c|m] ps IH]; intros ids; cbn; [reflexivity| |].
  - now rewrite IH.
  - destruct ids as [|i ids]; cbn.
    + now rewrite replace_hits_nil.
    + now rewrite IH.
Qed.

(** Without a definition every reference stays as it is. *)
Corollary footnote_references_without_definitions (contents : str) :
  hits (pieces true footnote_def_re contents) = [] ->
  _rst_footnotes contents = contents.
Proof.
  intros Hnone. rewrite footnotes_by_position. unfold spec_footnotes.
  rewrite Hnone. cbn [map numbered combine].
  rewrite replace_hits_nil, pieces_restore.
  rewrite replace_hits_undefined. apply pieces_restore.
Qed.

(** ** The tail of a NumPy section *)

Lemma match_at_section_end (before after : str) :
  match_at false section_end_re before after
  = if section_end_here after
    then Some (RMatch (rev before) [NL] (List.tl after) [])
    else None.
Proof.
  unfold match_at, section_end_re, section_end_here, Newline.
  destruct after as [|c more]; [reflexivity|].
  cbn [run rest cmatch List.tl]. destruct (Ascii.eqb NL c) eqn:Ec; [|reflexivity].
  apply Ascii.eqb_eq in Ec. subst c.
  cbn [step rest seen caps andb].
  destruct more as [|d more']; cbn [rest cmatch existsb citem_mem].
  - cbn. reflexivity.
  - rewrite orb_false_r.
    destruct (Ascii.eqb SP d || Ascii.eqb NL d);
      cbn [negb length rest caps step seen].
    + reflexivity.
    + replace (S (S (length more')) - S (length more')) with 1 by lia. reflexivity.
Qed.

Lemma split_limit_zero (gs : list nat) (ps : list piece) (cur : str) :
  split_pieces gs cur (limit_hits 0 ps) = [rev cur ++ sub_pieces m_text ps].
Proof.
  revert cur. induction ps as [|[c|m] ps IH]; intros cur; cbn [limit_hits split_pieces sub_pieces].
  - now rewrite app_nil_r.
  - rewrite IH. cbn [rev]. now rewrite <- app_assoc.
  - generalize (m_text m) as t. intros t. revert cur.
    induction t as [|c t IHt]; intros cur; cbn [keep_text split_pieces app].
    + apply IH.
    + rewrite IHt. cbn [rev]. now rewrite <- app_assoc.
Qed.


(** The search and the split of [numpy], as one pass over the characters. *)
Lemma scan_section_end (after before cur : str) :
  hits (scan false section_end_re before after 0)
    = [] <-> cut_section after = None.
Proof.
  revert before. induction after as [|c tl IH]; intros before.
  - cbn [scan]. rewrite match_at_section_end. cbn. tauto.
  - cbn [scan cut_section]. rewrite match_at_section_end.
    destruct (section_end_here (c :: tl)).
    + cbn. split; discriminate.
    + cbn [hits]. rewrite IH. destruct (cut_section tl) as [[a b]|]; split; congruence.
Qed.

Lemma split_section_end (after before cur : str) :
  split_pieces [] cur (limit_hits 1 (scan false section_end_re before after 0))
  = match cut_section after with
    | Some (a, b) => [rev cur ++ a; b]
    | None => [rev cur ++ after]
    end.
Proof.
  revert before cur. induction after as [|c tl IH]; intros before cur.
  - cbn [scan]. rewrite match_at_section_end.
    cbn [section_end_here limit_hits split_pieces cut_section]. now rewrite app_nil_r.
  - cbn [scan cut_section]. rewrite match_at_section_end.
    destruct (section_end_here (c :: tl)) eqn:E.
    + cbn [m_text length limit_hits split_pieces map app].
      rewrite split_limit_zero, scan_restores. cbn. now rewrite app_nil_r.
    + cbn [limit_hits split_pieces]. rewrite IH.
      destruct (cut_section tl) as [[a b]|]; cbn [rev]; now rewrite <- app_assoc.
Qed.

Lemma split_tail_cut (content : str) :
  split_tail content
  = if startswith [SP] content
    then match cut_section content with
         | Some (a, b) => Ok (a, b)
         | None => Ok (content, [])
         end
    else Ok (content, []).
Proof.
  unfold split_tail, re_search, re_split_max, pieces.
  destruct (startswith [SP] content); [|reflexivity]. cbn [andb].
  rewrite (split_section_end content [] []).
  pose proof (scan_section_end content [] []) as Hs.
  destruct (cut_section content) as [[a b]|].
  - destruct (hits (scan false section_end_re [] content 0)); [|reflexivity].
    destruct Hs as [Hs _]. specialize (Hs eq_refl). discriminate.
  - destruct Hs as [_ Hs]. rewrite (Hs eq_refl). reflexivity.
Qed.











Example numpy_tail_example :
  spec_tail (py "    x : int\n\n    y : int\nSee the notes.\n  more") = py "See the notes.\n  more" /\
  numpy (py "Notes\n-----\n    indented\n\n    text\nSee the notes.\n  more")
  = ret (py "###### Notes\nindented\n\ntextSee the notes.\n  more").
Proof. vm_compute. split; reflexivity. Qed.

(** An indented content that ends with a newline has no tail, and loses that
    newline. *)
Example numpy_trailing_newline :
  spec_tail (py "  text\n") = [] /\
  split_tail (py "  text\n") = Ok (py "  text", []) /\
  split_tail (py "text\n") = Ok (py "text\n", []).
Proof. vm_compute. repeat split. Qed.

(** ** Resources that cannot be read *)

Lemma bind_ret {A B : Type} (a : A) (f : A -> E B) : bind (ret a) f = f a.
Proof. unfold bind, ret. destruct (f a). reflexivity. Qed.

Lemma sub_piecesE_ret (f : rmatch -> E str) (g : rmatch -> str) (ps : list piece) :
  (forall m, In m (hits ps) -> f m = ret (g m)) ->
  sub_piecesE f ps = ret (sub_pieces g ps).
Proof.
  induction ps as [|[c|m] ps IH]; intros H; cbn [sub_piecesE sub_pieces].
  - reflexivity.
  - rewrite IH by exact H. now rewrite bind_ret.
  - rewrite (H m) by (cbn; auto). rewrite bind_ret.
    rewrite IH by (intros; apply H; cbn; auto). now rewrite bind_ret.
Qed.




(** The include options can only fail with [ValueError]. *)
Lemma int_of_raises (w : world) (i : str) (e : exn) :
  int_of w i = Raise e -> is_ValueError e = true.
Proof. unfold int_of. destruct (parse_int w i); [discriminate|]. now intros [= <-]. Qed.

Lemma index_or_raise_raises (x contents : str) (e : exn) :
  index_or_raise x contents = Raise e -> is_ValueError e = true.
Proof.
  unfold index_or_raise. destruct (index_of x contents); [discriminate|]. now intros [= <-].
Qed.

Lemma include_trim_raises (w : world) (contents : str) (options : list (str * str))
    (e : exn) :
  _rst_include_trim w contents options = Raise e -> is_ValueError e = true.
Proof.
  unfold _rst_include_trim. intros H.
  destruct (trim_lines w options contents) as [c1|e1] eqn:H1.
  - destruct (trim_end_before options c1) as [c2|e2] eqn:H2.
    + unfold trim_start_after in H.
      destruct (get_truthy (py "start-after") options); [|discriminate].
      destruct (index_or_raise s c2) eqn:Hi; [discriminate|].
      injection H as <-. eapply index_or_raise_raises; eauto.
    + injection H as <-. unfold trim_end_before in H2.
      destruct (get_truthy (py "end-before") options); [|discriminate].
      destruct (index_or_raise s c1) eqn:Hi; [discriminate|].
      injection H2 as <-. eapply index_or_raise_raises; eauto.
  - injection H as <-. unfold trim_lines in H1.
    destruct (has_key (py "end-line") options || has_key (py "start-line") options);
      [|discriminate].
    destruct (trim_end_line w options (splitlines contents)) as [l1|e2] eqn:T1.
    + destruct (trim_start_line w options l1) as [l2|e3] eqn:T2; [discriminate|].
      injection H1 as <-. unfold trim_start_line in T2.
      destruct (get_truthy (py "start-line") options); [|discriminate].
      destruct (int_of w s) eqn:Hi; [discriminate|].
      injection T2 as <-. eapply int_of_raises; eauto.
    + injection H1 as <-. unfold trim_end_line in T1.
      destruct (get_truthy (py "end-line") options); [|discriminate].
      destruct (int_of w s) eqn:Hi; [discriminate|].
      injection T1 as <-. eapply int_of_raises; eauto.
Qed.










(** The document around an unreadable include and an unreadable image is
    converted as usual. *)
Example include_missing_example :
  convert no_files include_missing_docstring (py "restructuredtext") (Some [py "mod.py"])
  = (Ok (py "Before.\n\n\n\n\nAfter ![logo](logo.png)."),
     [py "Cannot include 'missing.txt': [Errno 2] No such file or directory"]).
Proof. vm_compute. reflexivity. Qed.

(** A readable image next to an unreadable one: only the first is embedded. *)
Example mixed_images_example :
  convert (table_world [([py "logo.png"], py "PNG")] [])
          (py "![logo](logo.png) ![gone](gone.png)") (py "markdown") (Some [py "mod.py"])
  = (Ok (py "![logo](data:None;base64,PNG) ![gone](gone.png)"), []).
Proof. vm_compute. reflexivity. Qed.

(** ** Hyperlink targets *)








Lemma sub_piecesS_no_hits {S : Type} (f : rmatch -> S -> str * S) (ps : list piece)
    (s : S) :
  hits ps = [] -> sub_piecesS f ps s = (sub_pieces m_text ps, s).
Proof.
  induction ps as [|[c|m] ps IH]; cbn [hits sub_piecesS sub_pieces]; intros H.
  - reflexivity.
  - now rewrite IH.
  - discriminate.
Qed.



Lemma startswith_app (x q : str) : startswith x (x ++ q) = true.
Proof. induction x as [|c x IH]; cbn; [reflexivity|]. now rewrite Ascii.eqb_refl. Qed.

Lemma contains_app (x p q : str) : contains x (p ++ x ++ q) = true.
Proof.
  induction p as [|c p IH].
  - cbn [app]. destruct (x ++ q) eqn:E; cbn [contains]; rewrite <- E;
      now rewrite startswith_app.
  - cbn [app contains]. rewrite IH. apply orb_true_r.
Qed.





(** Of two targets, the one with an "http" url is registered and removed and
    its reference becomes a link; the other one stays, and so does the
    reference to it. *)
Example links_example :
  _rst_links links_docstring
  = py "\n.. _bar: ftp://y.org\n\n[foo](http://x.org) and `bar`_.".
Proof. vm_compute. reflexivity. Qed.

(** ** The splitter's precondition and the Google converter *)

(** The Google converter strips the section body before it calls the
    splitter, and that is enough for the splitter's precondition. *)
Lemma linebreak_is_space (c : ascii) : islinebreak c = true -> isspace c = true.
Proof.
  destruct c as [[] [] [] [] [] [] [] []]; intros H; try discriminate H; reflexivity.
Qed.

Lemma lstrip_head (s : str) (c : ascii) (tl : str) :
  lstrip s = c :: tl -> isspace c = false.
Proof.
  unfold lstrip. induction s as [|d s IH]; cbn [lstrip_by]; [discriminate|].
  destruct (isspace d) eqn:E; [exact IH|]. now intros [= <- _].
Qed.

Lemma lstrip_by_keeps_last (p : ascii -> bool) (x : str) (c : ascii) :
  p c = false -> lstrip_by p (x ++ [c]) <> [].
Proof.
  intros Hc. induction x as [|d x IH]; cbn [app lstrip_by].
  - rewrite Hc. discriminate.
  - destruct (p d); [exact IH|discriminate].
Qed.

Lemma strip_nonempty (c : ascii) (l : str) :
  isspace c = false -> is_empty (strip (c :: l)) = false.
Proof.
  intros Hc. unfold strip, lstrip, rstrip_by. cbn [lstrip_by]. rewrite Hc.
  cbn [rev]. pose proof (lstrip_by_keeps_last isspace (rev l) c Hc) as Hne.
  destruct (lstrip_by isspace (rev l ++ [c])) as [|x y] eqn:E; [contradiction|].
  cbn [rev]. destruct (rev y); reflexivity.
Qed.

Lemma splitlines_go_first (s cur : str) :
  cur <> [] -> exists l ls, splitlines_go cur s = (rev cur ++ l) :: ls.
Proof.
  revert cur. induction s as [|c s IH]; intros cur Hcur; cbn [splitlines_go].
  - destruct cur; [contradiction|]. exists [], []. now rewrite app_nil_r.
  - destruct (Ascii.eqb c CR).
    + destruct s as [|d s'].
      * exists [c], []. reflexivity.
      * destruct (Ascii.eqb d NL).
        -- exists [c; d]. eexists. cbn [rev]. rewrite <- !app_assoc. reflexivity.
        -- exists [c]. eexists. reflexivity.
    + destruct (islinebreak c).
      * exists [c]. eexists. reflexivity.
      * destruct (IH (c :: cur)) as [l [ls E]]; [discriminate|].
        exists (c :: l), ls. rewrite E. cbn [rev]. now rewrite <- app_assoc.
Qed.

Lemma indented_list_loop_started (lines : list str) (cur : str) (older : list str) :
  exists items, indented_list_loop lines (cur :: older) = Ok items.
Proof.
  revert cur older. induction lines as [|line lines IH]; intros cur older;
    cbn [indented_list_loop].
  - eauto.
  - destruct (negb (is_empty (strip line) || startswith [SP] line)); apply IH.
Qed.

Lemma indented_list_after_lstrip (s : str) :
  exists items, _indented_list (lstrip s) = Ok items.
Proof.
  destruct (lstrip s) as [|c tl] eqn:E; [exists []; reflexivity|].
  pose proof (lstrip_head s c tl E) as Hc.
  assert (Hsp : Ascii.eqb SP c = false)
    by (destruct (Ascii.eqb_spec SP c) as [<-|]; [discriminate Hc|reflexivity]).
  assert (Hnl : Ascii.eqb NL c = false)
    by (destruct (Ascii.eqb_spec NL c) as [<-|]; [discriminate Hc|reflexivity]).
  assert (Hcr : Ascii.eqb c CR = false)
    by (destruct (Ascii.eqb_spec c CR) as [->|]; [discriminate Hc|reflexivity]).
  assert (Hlb : islinebreak c = false).
  { destruct (islinebreak c) eqn:L; [|reflexivity].
    apply linebreak_is_space in L. congruence. }
  unfold _indented_list. cbn [startswith]. rewrite Hsp, Hnl. cbn [andb].
  unfold splitlines_keep. cbn [splitlines_go]. rewrite Hcr, Hlb.
  destruct (splitlines_go_first tl [c]) as [l [ls Hl]]; [discriminate|].
  rewrite Hl. cbn [rev app indented_list_loop startswith].
  rewrite (strip_nonempty c l Hc), Hsp. cbn [andb orb negb].
  destruct (indented_list_loop_started ls (c :: l) []) as [items Hi].
  rewrite Hi. eauto.
Qed.

Lemma google_section_never_raises (m : rmatch) :
  exists out, _google_section m = (Ok out, []).
Proof.
  unfold _google_section.
  destruct (in_list _ GOOGLE_LIST_SECTIONS).
  - destruct (indented_list_after_lstrip (dedent (group_str m 2))) as [items Hi].
    rewrite Hi. rewrite bind_ret. unfold ret. eauto.
  - rewrite bind_ret. unfold ret. eauto.
Qed.

Lemma sub_piecesE_quiet (f : rmatch -> E str) (ps : list piece) :
  (forall m, In m (hits ps) -> exists x, f m = (Ok x, [])) ->
  exists out, sub_piecesE f ps = (Ok out, []).
Proof.
  induction ps as [|[c|m] ps IH]; intros H; cbn [sub_piecesE].
  - exists []. reflexivity.
  - destruct (IH H) as [out E]. rewrite E. cbn. eauto.
  - destruct (H m) as [x Em]; [cbn; auto|].
    destruct IH as [out E]; [intros; apply H; cbn; auto|].
    rewrite Em, E. cbn. eauto.
Qed.

Lemma google_quiet (docstring : str) :
  exists out, google docstring = (Ok out, []).
Proof.
  unfold google, re_subE. apply sub_piecesE_quiet.
  intros m _. apply google_section_never_raises.
Qed.

(** The assertion of [_indented_list] cannot fail under [google]: the
    converter raises nothing and warns nothing, whatever the text. *)
Theorem google_never_raises (docstring : str) :
  exists out, google docstring = (Ok out, []).
Proof. exact (google_quiet docstring). Qed.

(* ================================================================== *)
(** * Further properties of the converters *)
(* ================================================================== *)

(** ** Patterns as sequences *)

(** A match of a sequence of patterns passes through a match of each of its
    members. *)
Lemma matches_Seqs_mid (ml : bool) (rs1 : list regex) (r : regex) (rs2 : list regex)
    (st st' : mstate) :
  matches ml (Seqs (rs1 ++ r :: rs2)) st st' ->
  exists s s' t,
    rest st = t ++ rest s /\ matches ml r s s' /\ matches ml (Seqs rs2) s' st'.
Proof.
  revert st. induction rs1 as [|x rs1 IH]; intros st H.
  - cbn [app] in H. destruct rs2 as [|y rs2].
    + exists st, st', []. repeat split; [exact H|constructor].
    + change (Seqs (r :: y :: rs2)) with (Seq r (Seqs (y :: rs2))) in H.
      apply matches_Seq_inv in H. destruct H as [s1 [H1 H2]].
      exists st, s1, []. auto.
  - assert (Hs : Seqs ((x :: rs1) ++ r :: rs2) = Seq x (Seqs (rs1 ++ r :: rs2)))
      by (destruct rs1; reflexivity).
    rewrite Hs in H. apply matches_Seq_inv in H. destruct H as [s1 [H1 H2]].
    apply matches_moves in H1. destruct H1 as [t1 [R1 _]].
    apply IH in H2. destruct H2 as [s [s' [t [R2 [Hr Hrest]]]]].
    exists s, s', (t1 ++ t). rewrite R1, R2, app_assoc. auto.
Qed.

Lemma contains_iff (x s : str) :
  contains x s = true <-> exists u v, s = u ++ x ++ v.
Proof.
  split.
  - induction s as [|c s IH]; cbn [contains]; intros H.
    + rewrite orb_false_r in H. destruct x; [|discriminate]. exists [], []. reflexivity.
    + apply orb_true_iff in H. destruct H as [H|H].
      * exists []. cbn [app]. revert H. generalize (c :: s) as s0. clear.
        induction x as [|a x IH]; intros s0 H; [exists s0; reflexivity|].
        destruct s0 as [|b s0]; [discriminate|]. cbn [startswith] in H.
        apply andb_true_iff in H. destruct H as [E H]. apply Ascii.eqb_eq in E. subst b.
        destruct (IH s0 H) as [v ->]. exists v. reflexivity.
      * destruct (IH H) as [u [v ->]]. exists (c :: u), v. reflexivity.
  - intros [u [v ->]]. apply contains_app.
Qed.

(** A text that lacks a word also lacks every text around that word. *)
Lemma contains_inside (p x q s : str) :
  contains x s = false -> contains (p ++ x ++ q) s = false.
Proof.
  intros H. destruct (contains (p ++ x ++ q) s) eqn:E; [|reflexivity].
  apply contains_iff in E. destruct E as [u [v ->]].
  rewrite <- H. symmetry.
  replace (u ++ (p ++ x ++ q) ++ v) with ((u ++ p) ++ x ++ (q ++ v))
    by (now rewrite <- !app_assoc).
  apply contains_app.
Qed.

(** A pattern with a literal word among its members matches only where the
    word occurs. *)
Lemma literal_needed (ml : bool) (rs1 : list regex) (x : str) (rs2 : list regex)
    (b a : str) (m : rmatch) :
  match_at ml (Seqs (rs1 ++ Lits x :: rs2)) b a = Some m ->
  contains x (rev b ++ a) = true.
Proof.
  intros H. apply match_at_sound in H. destruct H as [st' [H _]].
  apply matches_Seqs_mid in H. destruct H as [s [s' [t [R [H _]]]]]. cbn [rest] in R.
  apply matches_Lits in H. destruct H as [R1 _].
  rewrite R, R1, app_assoc. apply contains_app.
Qed.

Lemma no_literal_no_hits (ml : bool) (rs1 : list regex) (x : str) (rs2 : list regex)
    (s : str) :
  contains x s = false ->
  hits (pieces ml (Seqs (rs1 ++ Lits x :: rs2)) s) = [].
Proof.
  intros Hno.
  destruct (hits (pieces ml (Seqs (rs1 ++ Lits x :: rs2)) s)) as [|m ms] eqn:E;
    [reflexivity|exfalso].
  assert (Hin : In m (hits (pieces ml (Seqs (rs1 ++ Lits x :: rs2)) s)))
    by (rewrite E; cbn; auto).
  apply pieces_hits in Hin. destruct Hin as [b [a [Hm Hs]]].
  apply literal_needed in Hm. rewrite Hs in Hm. congruence.
Qed.

(** ** Field lists *)

Lemma matches_Alts_Lits (ml : bool) (ws : list str) (st st' : mstate) :
  ws <> [] ->
  matches ml (Alts (map Lits ws)) st st' ->
  exists x, In x ws /\ consumed st st' = x.
Proof.
  induction ws as [|x ws IH]; intros Hne H; [contradiction|].
  destruct ws as [|y ws].
  - cbn in H. apply matches_Lits in H. destruct H as [R _].
    exists x. split; [cbn; auto|]. now apply consumed_spec.
  - change (Alts (map Lits (x :: y :: ws)))
      with (Alt (Lits x) (Alts (map Lits (y :: ws)))) in H.
    apply matches_Alt_inv in H. destruct H as [H|H].
    + apply matches_Lits in H. destruct H as [R _].
      exists x. split; [cbn; auto|]. now apply consumed_spec.
    + destruct (IH ltac:(discriminate) H) as [z [Hz E]].
      exists z. split; [cbn [In] in *; auto|exact E].
Qed.

(** The type of a matched field is one of the five names in the pattern. *)
Lemma field_type (m : rmatch) (b a : str) :
  match_at true field_re b a = Some m ->
  In (group_str m 1) [py "param"; py "type"; py "return"; py "rtype"; py "raises"].
Proof.
  intros H. apply match_at_sound in H. destruct H as [st' [H [_ [_ [_ Hc]]]]].
  change field_re
    with (Seqs ([Bol; Word ":"]
                ++ Group 1 (Alts (map Lits [py "param"; py "type"; py "return";
                                             py "rtype"; py "raises"]))
                :: [ Opt (Seq (Plus true Blank) (Group 2 (Plus true Any)));
                     Word ":";
                     Group 3 (Seqs [ Star true Any;
                                     Star true (Group 4 (Seqs [Star true (Seq Newline (Star true Blank));
                                                               Plus true Blank; Plus true Any]));
                                     Alt Newline Eol ]) ])) in H.
  apply matches_Seqs_mid in H. destruct H as [s [s' [t [_ [Hg Hrest]]]]].
  apply matches_Group_inv in Hg. destruct Hg as [s1 [Hw ->]].
  apply matches_Alts_Lits in Hw; [|discriminate]. destruct Hw as [x [Hx E]].
  apply matches_caps in Hrest. destruct Hrest as [new [C F]].
  unfold group_str, group. rewrite Hc, C.
  rewrite (lookup_cap_skip 1 _ new _ F).
  - cbn [caps set_cap lookup_cap Nat.eqb]. rewrite E. exact Hx.
  - cbn. intuition discriminate.
Qed.

Lemma rst_field_total (m : rmatch) (v : field_vars) :
  In (group_str m 1) [py "param"; py "type"; py "return"; py "rtype"; py "raises"] ->
  exists out, _rst_field m v = (Ok out, []).
Proof.
  intros H. unfold _rst_field.
  cbn [In] in H. destruct H as [H|[H|[H|[H|[H|[]]]]]]; rewrite <- H;
    repeat match goal with
           | |- context [str_eqb (py ?a) (py ?b)] =>
             let r := eval vm_compute in (str_eqb (py a) (py b)) in
             change (str_eqb (py a) (py b)) with r
           end;
    cbv iota;
    try (destruct (negb _)); unfold ret; eauto.
Qed.

Lemma sub_piecesSE_quiet {S : Type} (f : rmatch -> S -> E (str * S)) (ps : list piece) :
  (forall m s, In m (hits ps) -> exists out, f m s = (Ok out, [])) ->
  forall s, exists out, sub_piecesSE f ps s = (Ok out, []).
Proof.
  induction ps as [|[c|m] ps IH]; intros H s; cbn [sub_piecesSE].
  - unfold ret. eauto.
  - destruct (IH H s) as [out E]. rewrite E. cbn. eauto.
  - destruct (H m s) as [x Em]; [cbn; auto|]. rewrite Em.
    destruct (IH (fun m' s' Hin => H m' s' (or_intror Hin)) (snd x)) as [out E].
    cbn [bind]. rewrite E. cbn. eauto.
Qed.

Lemma rst_fields_quiet (contents : str) :
  exists out, _rst_fields contents = (Ok out, []).
Proof.
  unfold _rst_fields, re_subSE.
  destruct (sub_piecesSE_quiet _rst_field (pieces true field_re contents))
    with (s := FieldVars false false) as [out E].
  - intros m s Hm. apply pieces_hits in Hm. destruct Hm as [b [a [Hm _]]].
    apply rst_field_total. eapply field_type; eauto.
  - rewrite E. cbn. eauto.
Qed.

(** The branch of [_rst_field] marked unreachable is unreachable:
    [_rst_fields] raises nothing and warns nothing, whatever the text. *)
Theorem rst_fields_never_raise (contents : str) :
  exists out, _rst_fields contents = (Ok out, []).
Proof. exact (rst_fields_quiet contents). Qed.

(** ** Directives other than include *)

(** The type of a matched directive is a piece of the text. *)
Lemma admonition_type_in_text (m : rmatch) (b a : str) :
  match_at true admonition_re b a = Some m ->
  contains (group_str m 2) (rev b ++ a) = true.
Proof.
  intros H. apply match_at_sound in H. destruct H as [st' [H [_ [_ [_ Hc]]]]].
  change admonition_re
    with (Seqs ([Bol; Group 1 (Star true Blank); Word ".."; Plus true Blank]
                ++ Group 2 (Alts admonition_types)
                :: [ Word "::"; Group 3 (Star true Any);
                     Group 4 (Star true (Group 5 (Alt Newline
                                                      (Seqs [Backref 1; Plus true Blank;
                                                             Plus true Any]))));
                     Eol ])) in H.
  apply matches_Seqs_mid in H. destruct H as [s [s' [t [R [Hg Hrest]]]]].
  cbn [rest] in R.
  apply matches_Group_inv in Hg. destruct Hg as [s1 [Hw ->]].
  apply matches_moves in Hw. destruct Hw as [ty [Rty _]].
  apply matches_caps in Hrest. destruct Hrest as [new [C F]].
  unfold group_str, group. rewrite Hc, C.
  rewrite (lookup_cap_skip 2 _ new _ F).
  - cbn [caps set_cap lookup_cap Nat.eqb].
    rewrite (consumed_spec s s1 ty Rty). rewrite R, Rty, app_assoc. apply contains_app.
  - cbn. intuition discriminate.
Qed.

Lemma admonition_without_include (w : world) (nested : str -> option (Path w) -> E str)
    (source_file : option (Path w)) (m : rmatch) :
  str_eqb (group_str m 2) (py "include") = false ->
  _rst_admonition w nested source_file m
  = ret (let (contents, _) := _rst_extract_options (strip (dedent (group_str m 4))) in
         render_admonition (group_str m 1) (group_str m 2) (strip (group_str m 3))
                           contents).
Proof.
  intros H. unfold _rst_admonition.
  destruct (_rst_extract_options (strip (dedent (group_str m 4)))) as [contents options].
  now rewrite H.
Qed.

Lemma admonitions_without_include (w : world) (depth : nat) (text : str)
    (source_file : option (Path w)) :
  contains (py "include") text = false ->
  _rst_admonitions w depth text source_file
  = ret (sub_pieces
           (fun m =>
              let (contents, _) := _rst_extract_options (strip (dedent (group_str m 4))) in
              render_admonition (group_str m 1) (group_str m 2) (strip (group_str m 3))
                                contents)
           (pieces true admonition_re text)).
Proof.
  intros Hno. rewrite _rst_admonitions_unfold. unfold re_subE.
  apply sub_piecesE_ret. intros m Hm.
  apply admonition_without_include.
  destruct (str_eqb (group_str m 2) (py "include")) eqn:E; [exfalso|reflexivity].
  apply str_eqb_eq in E.
  apply pieces_hits in Hm. destruct Hm as [b [a [Hm Htext]]].
  apply admonition_type_in_text in Hm. rewrite E, Htext in Hm. congruence.
Qed.

(** Without the word "include" in the text, [_rst_admonitions] reads no file:
    its result is the same in every world, for every source location and
    every depth, and it raises and warns nothing. *)
Theorem admonitions_read_nothing (w w' : world) (depth depth' : nat) (text : str)
    (source_file : option (Path w)) (source_file' : option (Path w')) :
  contains (py "include") text = false ->
  _rst_admonitions w depth text source_file
  = _rst_admonitions w' depth' text source_file' /\
  exists out, _rst_admonitions w depth text source_file = (Ok out, []).
Proof.
  intros Hno. rewrite !admonitions_without_include by exact Hno.
  split; [reflexivity|]. unfold ret. eauto.
Qed.

Lemma admonitions_read_nothing_witness :
  contains (py "include") (py ".. note:: Careful\n\n   Mind the gap.") = false /\
  _rst_admonitions no_files 0 (py ".. note:: Careful\n\n   Mind the gap.") None
  = _rst_admonitions (failing_reads KeyboardInterrupt) 7
                     (py ".. note:: Careful\n\n   Mind the gap.") (Some [py "mod.py"]).
Proof.
  split; [reflexivity|].
  exact (proj1 (admonitions_read_nothing no_files (failing_reads KeyboardInterrupt) 0 7
                  (py ".. note:: Careful\n\n   Mind the gap.") None (Some [py "mod.py"])
                  eq_refl)).
Defined.

(** ** Conversions that cannot fail *)

Lemma rst_without_include (w : world) (text : str) (source_file : option (Path w)) :
  contains (py "include") text = false ->
  exists out, rst w text source_file = (Ok out, []).
Proof.
  intros Hno. unfold rst. rewrite admonitions_without_include by exact Hno.
  rewrite bind_ret. apply rst_fields_quiet.
Qed.

Lemma assign_quiet (enabled : bool) (stage : str -> E str) (f : frame) :
  escaped f = None -> emitted f = [] ->
  (enabled = true -> exists out, stage (docstring_var f) = (Ok out, [])) ->
  escaped (assign enabled stage f) = None /\ emitted (assign enabled stage f) = [] /\
  (enabled = false -> docstring_var (assign enabled stage f) = docstring_var f).
Proof.
  intros He Hw Hs. unfold assign. rewrite He. destruct enabled.
  - destruct (Hs eq_refl) as [out E]. rewrite E. cbn. rewrite Hw.
    repeat split. discriminate.
  - auto.
Qed.

(** A docstring without the word "include", converted without a source
    location under a tag that does not select the NumPy converter, is always
    converted: [convert] raises nothing and warns nothing. *)
Theorem convert_without_numpy_and_include (w : world) (docstring docformat : str) :
  contains (py "numpy") (lower docformat) = false ->
  contains (py "include") docstring = false ->
  exists out, convert w docstring docformat None = (Ok out, []).
Proof.
  intros Hnp Hinc. unfold convert, convert_with, try_block.
  set (f0 := Frame docstring None []).
  set (f1 := assign _ (fun d => rst w d None) f0).
  set (f2 := assign _ google f1).
  set (f3 := assign _ numpy f2).
  assert (H1 : escaped f1 = None /\ emitted f1 = []).
  { destruct (assign_quiet (existsb (fun x => contains x (lower docformat)) rst_flavors)
                (fun d => rst w d None) f0 eq_refl eq_refl) as [A [B _]]; [|auto].
    intros _. now apply rst_without_include. }
  destruct H1 as [E1 W1].
  assert (H2 : escaped f2 = None /\ emitted f2 = []).
  { destruct (assign_quiet (contains (py "google") (lower docformat)) google f1 E1 W1)
      as [A [B _]]; [|auto].
    intros _. apply google_quiet. }
  destruct H2 as [E2 W2].
  assert (H3 : escaped f3 = None /\ emitted f3 = []).
  { subst f3. rewrite Hnp. unfold assign. rewrite E2. auto. }
  destruct H3 as [E3 W3]. rewrite E3, W3. eauto.
Qed.

Lemma convert_without_numpy_and_include_witness :
  contains (py "numpy") (lower (py "Google")) = false /\
  contains (py "include") google_args_docstring = false /\
  exists out, convert no_files google_args_docstring (py "Google") None = (Ok out, []).
Proof.
  split; [reflexivity|]. split; [reflexivity|].
  exact (convert_without_numpy_and_include no_files google_args_docstring (py "Google")
           eq_refl eq_refl).
Defined.

(** ** The failures of the NumPy converter *)

Lemma indented_list_loop_raises (lines ret : list str) (e : exn) :
  indented_list_loop lines ret = Raise e -> splitter_failure e.
Proof.
  revert ret. induction lines as [|line lines IH]; intros ret H;
    cbn [indented_list_loop] in H; [discriminate|].
  destruct (negb (is_empty (strip line) || startswith [SP] line)); [eauto|].
  destruct ret as [|cur older]; [|eauto].
  injection H as <-. right. eauto.
Qed.

Lemma indented_list_raises (contents : str) (e : exn) :
  _indented_list contents = Raise e -> splitter_failure e.
Proof.
  unfold _indented_list. intros H.
  destruct (startswith [SP] contents); [injection H as <-; left; eauto|].
  destruct (startswith [NL] contents); [injection H as <-; left; eauto|].
  destruct (indented_list_loop (splitlines_keep contents) []) eqn:L; [discriminate|].
  injection H as <-. eapply indented_list_loop_raises; eauto.
Qed.

Lemma numpy_section_raises (heading content : str) (e : exn) :
  numpy_section heading content = Raise e -> splitter_failure e.
Proof.
  unfold numpy_section. rewrite split_tail_cut. intros H.
  assert (Hr : forall c, match render_section heading c with
                         | Ok _ => True
                         | Raise e' => splitter_failure e'
                         end).
  { intros c. unfold render_section, _numpy_parameters, _numpy_seealso.
    destruct (in_list heading NUMPY_PARAMETER_HEADINGS).
    - destruct (_indented_list c) eqn:L; [exact I|]. eapply indented_list_raises; eauto.
    - destruct (str_eqb heading (py "See Also")); [|exact I].
      destruct (_indented_list c) eqn:L; [exact I|]. eapply indented_list_raises; eauto. }
  destruct (startswith [SP] content).
  - destruct (cut_section content) as [[a b]|].
    + specialize (Hr (dedent a)).
      destruct (render_section heading (dedent a)); [discriminate|]. now injection H as <-.
    + specialize (Hr (dedent content)).
      destruct (render_section heading (dedent content)); [discriminate|].
      now injection H as <-.
  - specialize (Hr (dedent content)).
    destruct (render_section heading (dedent content)); [discriminate|].
    now injection H as <-.
Qed.

Lemma numpy_loop_raises (pairs : list (str * str)) (contents : str) (e : exn) :
  numpy_loop pairs contents = Raise e -> splitter_failure e.
Proof.
  revert contents. induction pairs as [|[heading content] pairs IH]; intros contents H;
    cbn [numpy_loop] in H; [discriminate|].
  destruct (numpy_section heading content) eqn:S; [eauto|].
  injection H as <-. eapply numpy_section_raises; eauto.
Qed.

(** [numpy] warns nothing, and when it raises, the exception is one of the
    two that the splitter raises: the assertion on its argument, or the index
    error of its loop.  In particular the unpacking of the tail split never
    fails. *)
Theorem numpy_fails_only_in_splitter (docstring : str) :
  snd (numpy docstring) = [] /\
  match fst (numpy docstring) with
  | Ok _ => True
  | Raise e => splitter_failure e
  end.
Proof.
  unfold numpy.
  destruct (re_split true numpy_heading_re [1] docstring) as [|first sections].
  - split; [reflexivity|]. cbn. right. eauto.
  - destruct (numpy_loop (section_pairs sections) first) eqn:L; cbn.
    + split; [reflexivity|exact I].
    + split; [reflexivity|]. eapply numpy_loop_raises; eauto.
Qed.

(** ** Plain prose *)

Lemma literal_in_group_needed (ml : bool) (rs1 : list regex) (n : nat)
    (gs1 : list regex) (x : str) (gs2 rs2 : list regex) (b a : str) (m : rmatch) :
  match_at ml (Seqs (rs1 ++ Group n (Seqs (gs1 ++ Lits x :: gs2)) :: rs2)) b a = Some m ->
  contains x (rev b ++ a) = true.
Proof.
  intros H. apply match_at_sound in H. destruct H as [st' [H _]].
  apply matches_Seqs_mid in H. destruct H as [s [s' [t [R [H _]]]]]. cbn [rest] in R.
  apply matches_Group_inv in H. destruct H as [s1 [H _]].
  apply matches_Seqs_mid in H. destruct H as [s2 [s2' [t2 [R2 [H _]]]]].
  apply matches_Lits in H. destruct H as [R3 _].
  rewrite R, R2, R3.
  replace (rev b ++ t ++ t2 ++ x ++ rest s2') with ((rev b ++ t ++ t2) ++ x ++ rest s2')
    by (now rewrite <- !app_assoc).
  apply contains_app.
Qed.

Lemma no_group_literal_no_hits (ml : bool) (rs1 : list regex) (n : nat)
    (gs1 : list regex) (x : str) (gs2 rs2 : list regex) (s : str) :
  contains x s = false ->
  hits (pieces ml (Seqs (rs1 ++ Group n (Seqs (gs1 ++ Lits x :: gs2)) :: rs2)) s) = [].
Proof.
  intros Hno.
  match goal with |- hits ?ps = [] => destruct (hits ps) as [|m ms] eqn:E end;
    [reflexivity|exfalso].
  match type of E with hits ?ps = _ => assert (Hin : In m (hits ps)) by (rewrite E; cbn; auto) end.
  apply pieces_hits in Hin. destruct Hin as [b [a [Hm Hs]]].
  apply literal_in_group_needed in Hm. rewrite Hs in Hm. congruence.
Qed.

(** Where a pattern has no match, each kind of substitution and the split
    return the text. *)
Lemma re_sub_no_hits (ml : bool) (r : regex) (f : rmatch -> str) (s : str) :
  hits (pieces ml r s) = [] -> re_sub ml r f s = s.
Proof. intros H. apply re_sub_unchanged. rewrite H. contradiction. Qed.

Lemma re_subS_no_hits {S : Type} (ml : bool) (r : regex) (f : rmatch -> S -> str * S)
    (s : str) (v : S) :
  hits (pieces ml r s) = [] -> re_subS ml r f s v = (s, v).
Proof.
  intros H. unfold re_subS. rewrite sub_piecesS_no_hits by exact H.
  now rewrite pieces_restore.
Qed.

Lemma re_subE_no_hits (ml : bool) (r : regex) (f : rmatch -> E str) (s : str) :
  hits (pieces ml r s) = [] -> re_subE ml r f s = ret s.
Proof.
  intros H. unfold re_subE. rewrite (sub_piecesE_ret f m_text).
  - now rewrite pieces_restore.
  - rewrite H. contradiction.
Qed.

Lemma sub_piecesSE_no_hits {S : Type} (f : rmatch -> S -> E (str * S))
    (ps : list piece) (v : S) :
  hits ps = [] -> sub_piecesSE f ps v = ret (sub_pieces m_text ps, v).
Proof.
  induction ps as [|[c|m] ps IH]; cbn [hits sub_piecesSE sub_pieces]; intros H.
  - reflexivity.
  - rewrite IH by exact H. now rewrite bind_ret.
  - discriminate.
Qed.

Lemma split_pieces_no_hits (gs : list nat) (ps : list piece) (cur : str) :
  hits ps = [] -> split_pieces gs cur ps = [rev cur ++ sub_pieces m_text ps].
Proof.
  revert cur. induction ps as [|[c|m] ps IH]; cbn [hits split_pieces sub_pieces];
    intros cur Hh.
  - now rewrite app_nil_r.
  - rewrite IH by exact Hh. cbn [rev]. now rewrite <- app_assoc.
  - discriminate.
Qed.

Lemma re_split_no_hits (ml : bool) (r : regex) (gs : list nat) (s : str) :
  hits (pieces ml r s) = [] -> re_split ml r gs s = [s].
Proof.
  intros H. unfold re_split. rewrite split_pieces_no_hits by exact H.
  cbn [rev app]. now rewrite pieces_restore.
Qed.

Section PlainProse.

Variable text : str.
Hypothesis no_dots : contains (py "..") text = false.
Hypothesis no_underscore : contains (py "_") text = false.
Hypothesis no_colon : contains (py ":") text = false.
Hypothesis no_dashes : contains (py "--") text = false.
Hypothesis no_image : contains (py "![") text = false.
Hypothesis no_src : contains (py "src=") text = false.

Lemma plain_admonitions (w : world) (depth : nat) (source_file : option (Path w)) :
  _rst_admonitions w depth text source_file = ret text.
Proof.
  rewrite _rst_admonitions_unfold. apply re_subE_no_hits.
  exact (no_literal_no_hits true [Bol; Group 1 (Star true Blank)] (py "..")
           [ Plus true Blank; Group 2 (Alts admonition_types); Word "::";
             Group 3 (Star true Any);
             Group 4 (Star true (Group 5 (Alt Newline
                                              (Seqs [Backref 1; Plus true Blank;
                                                     Plus true Any]))));
             Eol ] text no_dots).
Qed.

Lemma plain_links : _rst_links text = text.
Proof.
  unfold _rst_links.
  rewrite re_sub_no_hits.
  - rewrite re_subS_no_hits.
    + apply re_sub_no_hits.
      exact (no_literal_no_hits false
               [Group 1 (Alt (Chr (PSet [upper_letter; lower_letter; IRange "0" "9";
                                         ILit "_"; ILit "-"; ILit "."; ILit ":";
                                         ILit "+"]))
                             (Seqs [Word "`"; Plus true not_backtick; Word "`"]))]
               (py "_") [] text no_underscore).
    + exact (no_literal_no_hits true
               [Bol; Star true Space; Any; Any; Plus true Space] (py "_")
               [ Group 1 (Plus true (Chr (PNot [ILit NL; ILit ":"])));
                 Word ":"; Star true Space;
                 Group 2 (Seq (Word "http") (Plus true NonSpace)) ] text no_underscore).
  - exact (no_literal_no_hits false
             [Word "`"; Group 1 (Plus true not_backtick); Word "<";
              Group 2 (Plus false Any)] (py ">`_") [] text
             (contains_inside (py ">`") (py "_") [] text no_underscore)).
Qed.

Lemma plain_roles :
  re_sub false code_reference_re replace_reference text = text.
Proof.
  apply re_sub_no_hits.
  exact (no_literal_no_hits false [Opt (Group 1 (Word ":py"))] (py ":")
           [ Group 2 (Alts [Word "mod"; Word "func"; Word "data"; Word "const";
                            Word "class"; Word "meth"; Word "attr"; Word "exc";
                            Word "obj"]);
             Word ":`"; Group 3 (Plus true not_backtick); Word "`" ] text no_colon).
Qed.

Lemma plain_math (f : rmatch -> str) : re_sub false math_re f text = text.
Proof.
  apply re_sub_no_hits.
  exact (no_literal_no_hits false [] (py ":math:`")
           [Group 1 (Plus false Any); Word "`"] text
           (contains_inside [] (py ":") (py "math:`") text no_colon)).
Qed.

Lemma plain_footnotes : _rst_footnotes text = text.
Proof.
  unfold _rst_footnotes. rewrite re_subS_no_hits.
  - rewrite re_subS_no_hits; [reflexivity|].
    exact (no_literal_no_hits false [Word "["; Group 1 footnote_id_re] (py "]_") [] text
             (contains_inside (py "]") (py "_") [] text no_underscore)).
  - exact (no_literal_no_hits true [Bol; Group 1 (Star true Blank)] (py "..")
             [ Plus true Blank; Word "["; Group 2 footnote_id_re; Word "]";
               Group 3 (Seq (Star true Any)
                            (Star true (Group 4 (Alt Newline
                                                     (Seqs [Backref 1; Plus true Blank;
                                                            Plus true Any])))));
               Eol ] text no_dots).
Qed.

Lemma plain_fields : _rst_fields text = ret text.
Proof.
  unfold _rst_fields, re_subSE. rewrite sub_piecesSE_no_hits.
  - rewrite bind_ret. cbn [fst]. now rewrite pieces_restore.
  - exact (no_literal_no_hits true [Bol] (py ":")
             [ Group 1 (Alts [Word "param"; Word "type"; Word "return"; Word "rtype";
                              Word "raises"]);
               Opt (Seq (Plus true Blank) (Group 2 (Plus true Any)));
               Word ":";
               Group 3 (Seqs [ Star true Any;
                               Star true (Group 4 (Seqs [Star true (Seq Newline (Star true Blank));
                                                         Plus true Blank; Plus true Any]));
                               Alt Newline Eol ]) ] text no_colon).
Qed.

Lemma plain_rst (w : world) (source_file : option (Path w)) :
  rst w text source_file = ret text.
Proof.
  unfold rst. rewrite plain_admonitions, bind_ret.
  rewrite plain_links, plain_roles, plain_math, plain_footnotes. apply plain_fields.
Qed.

Lemma plain_google : google text = ret text.
Proof.
  unfold google. apply re_subE_no_hits.
  exact (no_literal_no_hits true
           [ Bol;
             Group 1 (Seq (Chr (PSet [upper_letter]))
                          (Plus true (Chr (PSet [upper_letter; ILit SP; lower_letter])))) ]
           (py ":\n")
           [ Group 2 (Plus true (Group 3 (Alt Newline
                                              (Seq (Plus true (Chr blank_tab))
                                                   (Plus true Any)))));
             Eol ] text
           (contains_inside [] (py ":") (py "\n") text no_colon)).
Qed.

Lemma plain_numpy : numpy text = ret text.
Proof.
  unfold numpy. rewrite re_split_no_hits; [reflexivity|].
  exact (no_literal_no_hits true
           [ Bol;
             Group 1 (Seq (Chr (PSet [upper_letter]))
                          (Plus true (Chr (PSet [upper_letter; lower_letter; ILit SP]))));
             Newline ]
           (py "--") [Plus true (Chr (PLit "-")); Plus true Newline] text no_dashes).
Qed.

Lemma plain_images (w : world) (source_file : Path w) :
  embed_images w text source_file = ret text.
Proof.
  unfold embed_images. rewrite re_subE_no_hits.
  - rewrite bind_ret, re_subE_no_hits; [now rewrite bind_ret|].
    exact (no_group_literal_no_hits false [] 1 [] (py "src=")
             [Chr (PSet [ILit SQ; ILit DQ])]
             [Group 2 (Plus false Any); Group 3 (Chr (PSet [ILit SQ; ILit DQ]))]
             text no_src).
  - exact (no_group_literal_no_hits false [] 1 [] (py "![")
             [Star true Space; Star false Any; Star true Space; Word "]("; Star true Space]
             [Group 2 (Plus false Any); Group 3 (Seq (Star true Space) (Word ")"))]
             text no_image).
Qed.

End PlainProse.

Lemma assign_same (enabled : bool) (stage : str -> E str) (d : str) :
  stage d = ret d -> assign enabled stage (Frame d None []) = Frame d None [].
Proof.
  intros H. unfold assign. cbn [escaped docstring_var emitted].
  destruct enabled; [|reflexivity]. now rewrite H.
Qed.

(** Plain prose passes through every converter: a docstring in which none of
    "..", "_", ":", "--", "![" and "src=" occurs is returned as it is, under
    every tag and with or without a source location, and no file is read. *)
Theorem convert_plain_prose (w : world) (docstring docformat : str)
    (source_file : option (Path w)) :
  contains (py "..") docstring = false ->
  contains (py "_") docstring = false ->
  contains (py ":") docstring = false ->
  contains (py "--") docstring = false ->
  contains (py "![") docstring = false ->
  contains (py "src=") docstring = false ->
  convert w docstring docformat source_file = (Ok docstring, []).
Proof.
  intros H1 H2 H3 H4 H5 H6. unfold convert, convert_with, try_block.
  rewrite (assign_same _ (fun d => rst w d source_file) docstring)
    by (apply plain_rst; assumption).
  rewrite (assign_same _ google docstring) by (apply plain_google; assumption).
  rewrite (assign_same _ numpy docstring) by (apply plain_numpy; assumption).
  destruct source_file as [p|]; [|reflexivity].
  rewrite (assign_same _ (fun d => embed_images w d p) docstring)
    by (apply plain_images; assumption).
  reflexivity.
Qed.

Lemma convert_plain_prose_witness :
  contains (py "..") plain_docstring = false /\
  contains (py "_") plain_docstring = false /\
  contains (py ":") plain_docstring = false /\
  contains (py "--") plain_docstring = false /\
  contains (py "![") plain_docstring = false /\
  contains (py "src=") plain_docstring = false /\
  convert (failing_reads KeyboardInterrupt) plain_docstring
          (py "google numpy restructuredtext") (Some [py "mod.py"])
  = (Ok plain_docstring, []).
Proof.
  repeat (split; [reflexivity|]).
  apply (convert_plain_prose (failing_reads KeyboardInterrupt) plain_docstring
           (py "google numpy restructuredtext") (Some [py "mod.py"])); reflexivity.
Defined.

(** ** Directive options *)

(** A greedy star over a class that holds every character runs to the end of
    the text when the rest of the pattern accepts that. *)
Lemma star_loop_takes_all (body : mstate -> (mstate -> option mstate) -> option mstate)
    (k : mstate -> option mstate) :
  (forall st k', body st k' = match rest st with
                              | c :: tl => k' (step c tl st)
                              | [] => None
                              end) ->
  forall (n : nat) (st : mstate) (res : mstate),
    length (rest st) <= n ->
    k (MState (rev (rest st) ++ seen st) [] (caps st)) = Some res ->
    star_loop true body k n st = Some res.
Proof.
  intros Hbody. induction n as [|n IH]; intros [sn rs cs] res Hlen Hk;
    cbn [rest seen caps] in *.
  - destruct rs; [|cbn in Hlen; lia]. exact Hk.
  - cbn [star_loop]. rewrite Hbody. cbn [rest]. destruct rs as [|c tl].
    + exact Hk.
    + cbn [step rest seen caps length].
      replace (length tl <? S (length tl)) with true
        by (symmetry; apply Nat.ltb_lt; lia).
      change (step c tl (MState sn (c :: tl) cs)) with (MState (c :: sn) tl cs).
      rewrite (IH (MState (c :: sn) tl cs) res).
      * reflexivity.
      * cbn in *. lia.
      * cbn [rest seen caps]. cbn [rev] in Hk. now rewrite <- app_assoc in Hk.
Qed.

Lemma star_loop_all (ml : bool) (p : cpred) (k : mstate -> option mstate) :
  (forall c, cmatch p c = true) ->
  forall (n : nat) (st : mstate) (res : mstate),
    length (rest st) <= n ->
    k (MState (rev (rest st) ++ seen st) [] (caps st)) = Some res ->
    star_loop true (run ml (Chr p)) k n st = Some res.
Proof.
  intros Hall. apply star_loop_takes_all.
  intros st k'. cbn [run]. destruct (rest st); [reflexivity|]. now rewrite Hall.
Qed.

Lemma run_Seqs_last (ml : bool) (rs : list regex) (r : regex) (st : mstate)
    (k : mstate -> option mstate) (res : mstate) :
  run ml (Seqs (rs ++ [r])) st k = Some res ->
  exists s, matches ml (Seqs rs) st s /\ run ml r s k = Some res.
Proof.
  revert st. induction rs as [|x rs IH]; intros st H.
  - exists st. split; [constructor|exact H].
  - assert (Hs : Seqs ((x :: rs) ++ [r]) = Seq x (Seqs (rs ++ [r])))
      by (destruct rs; reflexivity).
    rewrite Hs in H. cbn [run] in H. apply run_sound in H.
    destruct H as [s1 [H1 H2]]. apply IH in H2. destruct H2 as [s [H2 H3]].
    exists s. split; [|exact H3].
    destruct rs as [|y rs].
    + apply matches_Empty_inv in H2. subst s. exact H1.
    + change (Seqs (x :: y :: rs)) with (Seq x (Seqs (y :: rs))).
      econstructor; eauto.
Qed.

Lemma run_Group_Star (ml : bool) (n : nat) (g : bool) (a : regex) (st : mstate)
    (k : mstate -> option mstate) :
  run ml (Group n (Star g a)) st k
  = star_loop g (run ml a) (fun st' => k (set_cap n (consumed st st') st'))
              (length (rest st)) st.
Proof. reflexivity. Qed.

(** A match of the option pattern takes a non-empty front off the text, and
    its third group is all that is left. *)
Lemma option_match_suffix (contents : str) (m : rmatch) :
  re_match false option_re contents = Some m ->
  (exists front, contents = front ++ group_str m 3) /\
  length (group_str m 3) < length contents.
Proof.
  unfold re_match, match_at. intros H.
  destruct (run false option_re (MState [] contents []) (fun st' => Some st'))
    as [st'|] eqn:Hrun; [|discriminate].
  injection H as <-. unfold group_str, group. cbn [m_caps].
  change option_re
    with (Seqs ([ Bol; Star true Space; Word ":"; Group 1 (Plus false Any); Word ":";
                  Group 2 (Star true Any) ]
                ++ [Group 3 (Star true (Chr (PSet [ISpace; INonSpace])))])) in Hrun.
  apply run_Seqs_last in Hrun. destruct Hrun as [s [Hpre Hlast]].
  rewrite run_Group_Star in Hlast.
  rewrite (star_loop_all false (PSet [ISpace; INonSpace])
             (fun st'0 => Some (set_cap 3 (consumed s st'0) st'0))
             ltac:(intros c; cbn; destruct (isspace c); reflexivity)
             (length (rest s)) s
             (set_cap 3 (consumed s (MState (rev (rest s) ++ seen s) [] (caps s)))
                      (MState (rev (rest s) ++ seen s) [] (caps s)))
             (le_n _) eq_refl) in Hlast.
  injection Hlast as <-. cbn [caps set_cap lookup_cap Nat.eqb].
  rewrite (consumed_spec s (MState (rev (rest s) ++ seen s) [] (caps s)) (rest s))
    by (cbn [rest]; now rewrite app_nil_r).
  pose proof (matches_moves _ _ _ _ Hpre) as [t [R _]]. cbn [rest] in R.
  split; [exists t; exact R|].
  change (Seqs [ Bol; Star true Space; Word ":"; Group 1 (Plus false Any); Word ":";
                 Group 2 (Star true Any) ])
    with (Seqs ([Bol; Star true Space] ++ Lits (py ":")
                :: [Group 1 (Plus false Any); Word ":"; Group 2 (Star true Any)]))
    in Hpre.
  apply matches_Seqs_mid in Hpre. destruct Hpre as [s1 [s2 [t1 [R1 [Hc Hrest]]]]].
  cbn [rest] in R1.
  apply matches_Lits in Hc. destruct Hc as [Rc _].
  apply matches_moves in Hrest. destruct Hrest as [t2 [R2 _]].
  change (py ":") with [":"%char] in Rc.
  rewrite R1, Rc, R2, !length_app. cbn [length]. lia.
Qed.

Lemma extract_options_loop_spec (turns : nat) :
  forall (contents : str) (options : list (str * str)),
    length contents <= turns ->
    (exists front, contents = front ++ fst (extract_options_loop turns contents options)) /\
    re_match false option_re (fst (extract_options_loop turns contents options)) = None.
Proof.
  induction turns as [|turns IH]; intros contents options Hlen; cbn [extract_options_loop].
  - destruct contents; [|cbn in Hlen; lia]. split; [exists []; reflexivity|reflexivity].
  - destruct (re_match false option_re contents) as [m|] eqn:Hm.
    + destruct (option_match_suffix contents m Hm) as [[front Hf] Hl].
      destruct (IH (group_str m 3)
                   (dict_set (group_str m 1) (strip (group_str m 2)) options)
                   ltac:(lia)) as [[front' Hf'] Hnone].
      split; [|exact Hnone].
      exists (front ++ front'). rewrite <- app_assoc, <- Hf'. exact Hf.
    + split; [exists []; reflexivity|exact Hm].
Qed.

(** [_rst_extract_options] stops only when no option heads the text: what it
    returns is an end piece of its argument that the option pattern does not
    match. *)
Theorem extract_options_takes_all (contents : str) :
  (exists front, contents = front ++ fst (_rst_extract_options contents)) /\
  re_match false option_re (fst (_rst_extract_options contents)) = None.
Proof. unfold _rst_extract_options. now apply extract_options_loop_spec. Qed.

(** ** Include options that cannot be applied *)

(** [trim_included], the second [try] of the include branch, never raises:
    either the options apply and the trimmed text gets a final newline, or
    they fail, and then the text is kept as it was read and one warning is
    emitted. *)
Theorem include_options_never_raise (w : world) (included : str)
    (options : list (str * str)) (val : str) :
  match _rst_include_trim w included options with
  | Ok trimmed => trim_included w included options val = (Ok (trimmed ++ [NL]), [])
  | Raise e =>
    trim_included w included options val
    = (Ok included,
       [py "Failed to process include options for " ++ repr_str w val ++ py ": "
        ++ exn_str w e])
  end.
Proof.
  unfold trim_included.
  destruct (_rst_include_trim w included options) as [trimmed|e] eqn:H; [reflexivity|].
  apply include_trim_raises in H. rewrite H. reflexivity.
Qed.

(** ** The failures of [embed_images] and of [convert] *)

Lemma sub_piecesE_failures (P : exn -> Prop) (f : rmatch -> E str) (ps : list piece) :
  (forall m, snd (f m) = [] /\
             match fst (f m) with Ok _ => True | Raise e => P e end) ->
  snd (sub_piecesE f ps) = [] /\
  match fst (sub_piecesE f ps) with Ok _ => True | Raise e => P e end.
Proof.
  intros H. induction ps as [|[c|m] ps IH]; cbn [sub_piecesE].
  - cbn. auto.
  - destruct (sub_piecesE f ps) as [[out|e] ws]; cbn in *; destruct IH as [-> IH]; auto.
  - destruct (H m) as [Hw Hr]. destruct (f m) as [[x|e] ws]; cbn in *; subst ws; [|auto].
    destruct (sub_piecesE f ps) as [[out|e] ws]; cbn in *; destruct IH as [-> IH]; auto.
Qed.

(** ** The items of the splitter *)

Lemma indented_list_loop_count (lines ret items : list str) :
  indented_list_loop lines ret = Ok items ->
  length items = length ret + length (filter starts_item lines).
Proof.
  revert ret. induction lines as [|line lines IH]; intros ret H;
    cbn [indented_list_loop filter] in *.
  - injection H as <-. rewrite length_rev. cbn. lia.
  - fold (starts_item line) in H. destruct (starts_item line).
    + apply IH in H. cbn [length] in *. lia.
    + destruct ret as [|cur older]; [discriminate|]. apply IH in H. cbn [length] in *. lia.
Qed.

(** When [_indented_list] returns, it returns one item for each line that is
    neither blank nor indented. *)
Theorem indented_list_one_item_per_start (contents : str) :
  match _indented_list contents with
  | Ok items => length items = length (filter starts_item (splitlines_keep contents))
  | Raise _ => True
  end.
Proof.
  unfold _indented_list.
  destruct (startswith [SP] contents); [exact I|].
  destruct (startswith [NL] contents); [exact I|].
  destruct (indented_list_loop (splitlines_keep contents) []) as [ret|] eqn:H; [|exact I].
  rewrite length_map. apply indented_list_loop_count in H. exact H.
Qed.

(** ** References to hyperlink targets *)

Lemma link_reference_id (m : rmatch) (b a : str) :
  match_at false link_ref_re b a = Some m -> reference_id_shape (group_str m 1).
Proof.
  intros H. apply match_at_sound in H. destruct H as [st' [H [_ [_ [_ Hc]]]]].
  unfold link_ref_re in H.
  apply matches_Seq_inv in H. destruct H as [s1 [Hg Hu]].
  apply matches_Group_inv in Hg. destruct Hg as [s0 [Hid ->]].
  apply matches_Lits in Hu. destruct Hu as [_ [_ C]]. cbn [caps set_cap] in C.
  unfold group_str, group. rewrite Hc, C. cbn [lookup_cap Nat.eqb].
  apply matches_Alt_inv in Hid. destruct Hid as [Hid|Hid].
  - apply matches_Chr_inv in Hid. destruct Hid as [c [tl [R [_ ->]]]].
    left. exists c. apply consumed_spec. cbn [rest step]. exact R.
  - right. cbn [Seqs] in Hid.
    apply matches_Seq_inv in Hid. destruct Hid as [sa [H1 Hid]].
    apply matches_Seq_inv in Hid. destruct Hid as [sb [H2 H3]].
    apply matches_Lits in H1. destruct H1 as [R1 _].
    apply matches_Plus_Chr in H2. destruct H2 as [c [t [R2 [_ [_ F]]]]].
    apply matches_Lits in H3. destruct H3 as [R3 _].
    exists (c :: t). split; [|split; [discriminate|]].
    + apply consumed_spec. rewrite R1, R2, R3. cbn. now rewrite <- app_assoc.
    + intros Hin. rewrite Forall_forall in F. specialize (F _ Hin). discriminate F.
Qed.

(** The id of a reference is one character or a backticked phrase: of a bare
    reference such as [home_], only the last character is looked up. *)
Theorem link_reference_shape (contents : str) :
  Forall (fun m => reference_id_shape (group_str m 1))
         (hits (pieces false link_ref_re contents)).
Proof.
  apply Forall_forall. intros m Hm.
  apply pieces_hits in Hm. destruct Hm as [b [a [Hm _]]].
  eapply link_reference_id; eauto.
Qed.

Example bare_reference_not_resolved :
  _rst_links bare_reference_docstring = py "\n\nSee home_ and [home](http://x.org).".
Proof. vm_compute. reflexivity. Qed.

Lemma match_at_Chr (ml : bool) (p : cpred) (before after : str) :
  match_at ml (Chr p) before after
  = match after with
    | c :: tl => if cmatch p c then Some (RMatch (rev before) [c] tl []) else None
    | [] => None
    end.
Proof.
  unfold match_at. cbn [run rest]. destruct after as [|c more]; [reflexivity|].
  destruct (cmatch p c); [|reflexivity].
  cbn [step rest caps length].
  replace (S (length more) - length more) with 1 by lia. reflexivity.
Qed.

(** Deleting the matches of a one-character pattern keeps the other
    characters. *)
Lemma re_sub_Chr_delete (ml : bool) (p : cpred) (s : str) :
  re_sub ml (Chr p) (fun _ => []) s = filter (fun c => negb (cmatch p c)) s.
Proof.
  unfold re_sub, pieces.
  assert (H : forall before,
             sub_pieces (fun _ : rmatch => @nil ascii) (scan ml (Chr p) before s 0)
             = filter (fun c => negb (cmatch p c)) s); [|apply H].
  induction s as [|c s IH]; intros before; cbn [scan filter].
  - rewrite match_at_Chr. reflexivity.
  - rewrite match_at_Chr. destruct (cmatch p c); cbn [negb sub_pieces m_text length app].
    + apply IH.
    + f_equal. apply IH.
Qed.

Lemma lower_char_backtick (c : ascii) : lower_char c = "`"%char -> c = "`"%char.
Proof.
  destruct c as [[] [] [] [] [] [] [] []]; intros H; try discriminate H; reflexivity.
Qed.

Lemma lower_no_backtick (s : str) : ~ In "`"%char s -> ~ In "`"%char (lower s).
Proof.
  intros H Hin. unfold lower in Hin. apply in_map_iff in Hin.
  destruct Hin as [c [Hc Hin]]. apply lower_char_backtick in Hc. now subst c.
Qed.

Lemma filter_same (f g : ascii -> bool) (s : str) :
  (forall c, In c s -> f c = g c) -> filter f s = filter g s.
Proof.
  induction s as [|c s IH]; intros H; cbn; [reflexivity|].
  rewrite (H c) by (cbn; auto). rewrite IH by (intros; apply H; cbn; auto). reflexivity.
Qed.

Lemma lstrip_by_no_match (p : ascii -> bool) (s : str) :
  (forall c, In c s -> p c = false) -> lstrip_by p s = s.
Proof. destruct s as [|c s]; cbn; intros H; [reflexivity|]. now rewrite H by auto. Qed.

Lemma strip_backticks (t : str) :
  ~ In "`"%char t -> strip_chars (py "`") (py "`" ++ t ++ py "`") = t.
Proof.
  intros H.
  assert (Hp : forall c, In c t -> mem_char (py "`") c = false).
  { intros c Hc. cbn. rewrite orb_false_r.
    destruct (Ascii.eqb_spec c "`") as [->|]; [contradiction|reflexivity]. }
  unfold strip_chars, rstrip_by. change (py "`" ++ t ++ py "`") with ("`"%char :: t ++ py "`").
  cbn [lstrip_by]. change (mem_char (py "`") "`") with true. cbv iota.
  destruct t as [|c t].
  - reflexivity.
  - cbn [app lstrip_by]. rewrite (Hp c) by (cbn; auto).
    change (c :: t ++ py "`") with ((c :: t) ++ ["`"%char]).
    rewrite rev_app_distr. cbn [rev app lstrip_by].
    change (mem_char (py "`") "`") with true. cbv iota.
    rewrite lstrip_by_no_match.
    + apply (rev_involutive (c :: t)).
    + intros d Hd. apply Hp. apply in_rev. exact Hd.
Qed.
